(** * dm-pii-entity-redactor: the redaction engine of [main.py]

    A shallow embedding of [PIIEntityRedactor] ([__init__],
    [_default_patterns], [redact_text], [_get_replacement]) and of
    [load_patterns], together with the part of Python's [re] module that
    [re.sub] runs on their behalf: the replacement-template parser, the
    leftmost non-overlapping scan and the substitution itself.

    Python [str] values are lists of 8-bit characters.  The state the
    program threads (the generator's random state and the records sent to
    the logger) is passed explicitly; exceptions are values of [exn]. *)

From Stdlib Require Import String Ascii Arith NArith Bool Lia List.
Import ListNotations.

Set Implicit Arguments.
Set Warnings "-register-all".

(** ** Strings *)

Definition str := list ascii.

Definition py (s : string) : str := list_ascii_of_string s.

Fixpoint str_eqb (a b : str) : bool :=
  match a, b with
  | [], [] => true
  | x :: a', y :: b' => Ascii.eqb x y && str_eqb a' b'
  | _, _ => false
  end.

(** Python's [s[i:j]] for [0 <= i], [0 <= j]. *)
Definition slice (s : str) (i j : nat) : str := firstn (j - i) (skipn i s).

Definition in_range (lo hi c : ascii) : bool :=
  (nat_of_ascii lo <=? nat_of_ascii c) && (nat_of_ascii c <=? nat_of_ascii hi).

Definition is_digit (c : ascii) : bool := in_range "0" "9" c.
Definition is_octdigit (c : ascii) : bool := in_range "0" "7" c.
Definition is_upper (c : ascii) : bool := in_range "A" "Z" c.
Definition is_lower (c : ascii) : bool := in_range "a" "z" c.
Definition is_asciiletter (c : ascii) : bool := is_upper c || is_lower c.
Definition is_space (c : ascii) : bool :=
  (nat_of_ascii c =? 32) || ((9 <=? nat_of_ascii c) && (nat_of_ascii c <=? 13))
  || ((28 <=? nat_of_ascii c) && (nat_of_ascii c <=? 31))
  || (nat_of_ascii c =? 133) || (nat_of_ascii c =? 160).

(** The characters of a [str] are the code points below 256.  Among them
    [\w] matches, besides the ASCII letters, the digits and [_], the
    letters and numeric characters of Latin-1 ([str.isalnum]); an
    identifier starts with a letter or [_] and goes on with letters,
    digits, [_] and the middle dot ([str.isidentifier]). *)
Definition in_ranges (rs : list (nat * nat)) (c : ascii) : bool :=
  existsb (fun r => (fst r <=? nat_of_ascii c) && (nat_of_ascii c <=? snd r)) rs.

Definition latin1_letters : list (nat * nat) :=
  [(170, 170); (181, 181); (186, 186); (192, 214); (216, 246); (248, 255)].

Definition is_word (c : ascii) : bool :=
  is_asciiletter c || is_digit c || Ascii.eqb c "_"
  || in_ranges ((178, 179) :: (185, 185) :: (188, 190) :: latin1_letters) c.

Definition is_id_start (c : ascii) : bool :=
  is_asciiletter c || Ascii.eqb c "_" || in_ranges latin1_letters c.

Definition is_id_continue (c : ascii) : bool :=
  is_id_start c || is_digit c || in_ranges [(183, 183)] c.

Definition digit_val (c : ascii) : nat := nat_of_ascii c - 48.

(** [int(name)] for a string of decimal digits, and [int(name, 8)]. *)
Definition int_of (base : nat) (ds : str) : nat :=
  fold_left (fun acc c => base * acc + digit_val c) ds 0.

Definition backslash : ascii := "\".

(** ** Exceptions

    Every class below derives from Python's [Exception]. *)

Inductive exn : Type :=
| re_error                       (* re.error, also raised for a bad template *)
| IndexError
| TypeError
| FileNotFoundError
| JSONDecodeError
| OverflowError
| OSError                        (* OSError (IOError), FileNotFoundError apart *)
| OtherException (msg : str).

(** ** The [re] module

    The module is the one of CPython 3.11, read on texts whose characters
    are code points below 256. *)

(** What the matching engine provides.  [re_compile] returns the compiled
    pattern or the exception the compiler raises: [re.error] for the
    syntax errors it reports, but also, for one, [OverflowError] for a
    repetition count too large.  [match_at r s pos adv] is one attempt of
    the matcher anchored at [pos]: the length of the match and the spans
    of its groups.  With [adv] set (the engine's must-advance flag) an
    empty match is refused, which is [match_at_advance]. *)
Class RegexEngine : Type := {
  regex : Type;
  re_compile : str -> exn + regex;
  re_groups : regex -> nat;
  re_groupindex : regex -> list (str * nat);
  match_at : regex -> str -> nat -> bool -> option (nat * list (option (nat * nat)));
  match_at_advance :
    forall r s pos n g, match_at r s pos true = Some (n, g) -> 0 < n
}.

Record re_match : Type := MatchObj {
  m_start : nat;
  m_end : nat;
  m_groups : list (option (nat * nat))
}.

(** *** Replacement templates ([re._parser.parse_template]) *)

Inductive template_item : Type :=
| TLit (l : str)
| TGroup (index : nat).

Definition template := list template_item.

Definition ESCAPES (c : ascii) : option ascii :=
  if Ascii.eqb c "a" then Some (ascii_of_nat 7)
  else if Ascii.eqb c "b" then Some (ascii_of_nat 8)
  else if Ascii.eqb c "f" then Some (ascii_of_nat 12)
  else if Ascii.eqb c "n" then Some (ascii_of_nat 10)
  else if Ascii.eqb c "r" then Some (ascii_of_nat 13)
  else if Ascii.eqb c "t" then Some (ascii_of_nat 9)
  else if Ascii.eqb c "v" then Some (ascii_of_nat 11)
  else if Ascii.eqb c backslash then Some backslash
  else None.

Definition is_identifier (name : str) : bool :=
  match name with
  | [] => false
  | c :: rest => is_id_start c && forallb is_id_continue rest
  end.

Fixpoint lookup (k : str) (d : list (str * nat)) : option nat :=
  match d with
  | [] => None
  | (k', v) :: d' => if str_eqb k k' then Some v else lookup k d'
  end.

Definition cons_item (i : template_item) (r : exn + template) : exn + template :=
  match r with
  | inl e => inl e
  | inr t => inr (i :: t)
  end.

(** [addgroup]: a reference beyond the pattern's groups is a [re.error]. *)
Definition addgroup (groups index : nat) (r : exn + template) : exn + template :=
  if groups <? index then inl re_error else cons_item (TGroup index) r.

(** [int(name)] for a group reference, [None] standing for its
    [ValueError]: decimal digits, with single underscores between digits,
    after an optional sign, with blanks around (the white space of ASCII
    and that of Latin-1 beyond it).  The result is the sign (set for a
    minus) and the magnitude. *)
Definition is_blank (c : ascii) : bool :=
  in_ranges [(9, 13); (32, 32); (133, 133); (160, 160)] c.

Fixpoint strip_left (s : str) : str :=
  match s with
  | c :: s' => if is_blank c then strip_left s' else s
  | [] => []
  end.

Definition strip (s : str) : str := rev (strip_left (rev (strip_left s))).

Fixpoint int_digits (s : str) (acc : nat) (after_digit : bool) : option nat :=
  match s with
  | [] => if after_digit then Some acc else None
  | c :: s' =>
    if is_digit c then int_digits s' (10 * acc + digit_val c) true
    else if Ascii.eqb c "_" && after_digit then int_digits s' acc false
    else None
  end.

Definition int (name : str) : option (bool * nat) :=
  match strip name with
  | c :: s' =>
    if Ascii.eqb c "-" then option_map (pair true) (int_digits s' 0 false)
    else if Ascii.eqb c "+" then option_map (pair false) (int_digits s' 0 false)
    else option_map (pair false) (int_digits (c :: s') 0 false)
  | [] => None
  end.

(** The group a [\g<name>] refers to: the one of that name when [name]
    is an identifier, the one of that number when [int] reads [name] as a
    number that is not negative. *)
Definition named_group (groups : nat) (groupindex : list (str * nat))
    (name : str) : exn + nat :=
  match name with
  | [] => inl re_error                                  (* missing group name *)
  | _ =>
    if is_identifier name then
      match lookup name groupindex with
      | Some index => inr index
      | None => inl IndexError                          (* unknown group name *)
      end
    else
      match int name with
      | Some (negative, index) =>
        if negative && (0 <? index) then inl re_error
        else inr index
      | None => inl re_error                            (* bad character in group name *)
      end
  end.

Fixpoint parse_template (groups : nat) (groupindex : list (str * nat))
    (source : str) : exn + template :=
  match source with
  | [] => inr []
  | this :: rest =>
    if Ascii.eqb this backslash then
      match rest with
      | [] => inl re_error                              (* bad escape (end of pattern) *)
      | c :: rest1 =>
        if Ascii.eqb c "g" then
          match rest1 with
          | lt :: rest2 =>
            if Ascii.eqb lt "<" then
              (fix getuntil (l : str) (name : str) {struct l} : exn + template :=
                 match l with
                 | [] => inl re_error                   (* missing >, unterminated name *)
                 | x :: l' =>
                   if Ascii.eqb x ">" then
                     (* the tokenizer is one token ahead: a backslash that
                        ends the source is reported before the name is
                        looked up *)
                     if str_eqb l' [backslash] then inl re_error
                     else
                       match named_group groups groupindex name with
                       | inl e => inl e
                       | inr index =>
                         addgroup groups index (parse_template groups groupindex l')
                       end
                   else getuntil l' (name ++ [x])
                 end) rest2 []
            else inl re_error                           (* missing < *)
          | [] => inl re_error
          end
        else if Ascii.eqb c "0" then
          match rest1 with
          | d1 :: rest2 =>
            if is_octdigit d1 then
              match rest2 with
              | d2 :: rest3 =>
                if is_octdigit d2 then
                  cons_item (TLit [ascii_of_nat (int_of 8 [d1; d2] mod 256)])
                            (parse_template groups groupindex rest3)
                else
                  cons_item (TLit [ascii_of_nat (int_of 8 [d1])])
                            (parse_template groups groupindex rest2)
              | [] => inr [TLit [ascii_of_nat (int_of 8 [d1])]]
              end
            else cons_item (TLit [ascii_of_nat 0]) (parse_template groups groupindex rest1)
          | [] => inr [TLit [ascii_of_nat 0]]
          end
        else if is_digit c then
          match rest1 with
          | d1 :: rest2 =>
            if is_digit d1 then
              match rest2 with
              | d2 :: rest3 =>
                if is_octdigit c && is_octdigit d1 && is_octdigit d2 then
                  if 255 <? int_of 8 [c; d1; d2] then inl re_error
                  else cons_item (TLit [ascii_of_nat (int_of 8 [c; d1; d2])])
                                 (parse_template groups groupindex rest3)
                else addgroup groups (int_of 10 [c; d1])
                              (parse_template groups groupindex rest2)
              | [] => addgroup groups (int_of 10 [c; d1]) (inr [])
              end
            else addgroup groups (int_of 10 [c]) (parse_template groups groupindex rest1)
          | [] => addgroup groups (int_of 10 [c]) (inr [])
          end
        else
          match ESCAPES c with
          | Some x => cons_item (TLit [x]) (parse_template groups groupindex rest1)
          | None =>
            if is_asciiletter c then inl re_error       (* bad escape \c *)
            else cons_item (TLit [this; c]) (parse_template groups groupindex rest1)
          end
      end
    else cons_item (TLit [this]) (parse_template groups groupindex rest)
  end.

(** [match.group(index)], with an unmatched group giving the empty string,
    as template expansion does. *)
Definition group_text (s : str) (m : re_match) (index : nat) : str :=
  match index with
  | 0 => slice s (m_start m) (m_end m)
  | S i =>
    match nth_error (m_groups m) i with
    | Some (Some (b, e)) => slice s b e
    | _ => []
    end
  end.

Definition expand_item (s : str) (m : re_match) (i : template_item) : str :=
  match i with
  | TLit l => l
  | TGroup index => group_text s m index
  end.

Definition expand_template (t : template) (s : str) (m : re_match) : str :=
  List.concat (map (expand_item s m) t).

(** *** Searching and substituting *)

Section Sub.
Context {E : RegexEngine}.

(** The engine's search: the anchored matcher is tried at [pos] (with the
    must-advance flag) and then at each later position up to the end of
    the string; [k] counts the positions still ahead. *)
Fixpoint search_from (r : regex) (s : str) (k pos : nat) (adv : bool)
    : option re_match :=
  match match_at r s pos adv with
  | Some (n, g) => Some (MatchObj pos (pos + n) g)
  | None =>
    match k with
    | 0 => None
    | S k' => search_from r s k' (S pos) false
    end
  end.

Definition re_search (r : regex) (s : str) (pos : nat) (adv : bool)
    : option re_match :=
  if length s <? pos then None
  else search_from r s (length s - pos) pos adv.

(** The loop of [sub]: search, record the match, restart at its end; an
    empty match sets the must-advance flag for the next search.  [None]
    when [fuel] iterations do not reach the end of the scan. *)
Fixpoint scan (fuel : nat) (r : regex) (s : str) (pos : nat) (adv : bool)
    : option (list re_match) :=
  match fuel with
  | 0 => None
  | S fuel' =>
    match re_search r s pos adv with
    | None => Some []
    | Some m =>
      match scan fuel' r s (m_end m) (m_end m =? m_start m) with
      | Some ms => Some (m :: ms)
      | None => None
      end
    end
  end.

Definition scan_fuel (s : str) : nat := 2 * length s + 4.

(** The matches [sub] replaces, in order.  The loop never runs out of
    [scan_fuel]: an engine refuses an empty match under the must-advance
    flag. *)
Definition finditer (r : regex) (s : str) : list re_match :=
  match scan (scan_fuel s) r s 0 false with
  | Some ms => ms
  | None => []
  end.

(** The pieces [sub] joins: the text between matches as it is, and [f m]
    in place of each match [m]. *)
Fixpoint weave (s : str) (i : nat) (ms : list re_match) (f : re_match -> str)
    : str :=
  match ms with
  | [] => skipn i s
  | m :: ms' => slice s i (m_start m) ++ f m ++ weave s (m_end m) ms' f
  end.

(** [re.sub(pattern, repl, string)] for a string [repl]: the pattern is
    compiled, then the template, then the matches are replaced. *)
Definition re_sub (pattern repl string : str) : exn + str :=
  match re_compile pattern with
  | inl e => inl e
  | inr r =>
    match parse_template (re_groups r) (re_groupindex r) repl with
    | inl e => inl e
    | inr t => inr (weave string 0 (finditer r string) (expand_template t string))
    end
  end.

End Sub.

(** ** The program *)

(** What [json.load] returns. *)
Inductive json : Type :=
| JNull
| JBool (b : bool)
| JNumber (literal : str)
| JString (s : str)
| JArray (items : list json)
| JObject (members : list (str * json)).

(** [isinstance(v, dict)] *)
Definition is_dict (v : json) : bool :=
  match v with
  | JObject _ => true
  | _ => false
  end.

(** The records the program hands to [logging]. *)
Inductive log_record : Type :=
| Regex_error (e : exn)
| Unexpected_redaction_error (e : exn)
| No_replacement_defined (entity_type : str)
| Fake_data_error (entity_type : str) (e : exn)
| Pattern_file_not_found (file_path : str)
| Invalid_JSON (file_path : str)
| Logged_exception (e : exn)
| Unexpected_loading_error (e : exn).

Section Program.
Context {E : RegexEngine}.

(** The random state of the generator. *)
Variable G : Type.

Record world : Type := World {
  rng : G;
  log : list log_record
}.

(** A computation reads and updates the world and returns or raises. *)
Definition M (A : Type) : Type := world -> world * (exn + A).

Definition ret {A} (x : A) : M A := fun w => (w, inr x).
Definition raise {A} (e : exn) : M A := fun w => (w, inl e).
Definition bind {A B} (c : M A) (f : A -> M B) : M B :=
  fun w =>
    match c w with
    | (w', inl e) => (w', inl e)
    | (w', inr x) => f x w'
    end.
Definition try_except {A} (c : M A) (handler : exn -> M A) : M A :=
  fun w =>
    match c w with
    | (w', inl e) => handler e w'
    | (w', inr x) => (w', inr x)
    end.
Definition lift {A} (r : exn + A) : M A := fun w => (w, r).
Definition logging (r : log_record) : M unit :=
  fun w => (World (rng w) (log w ++ [r]), inr tt).

Notation "x <- c ;; k" := (bind c (fun x => k))
  (at level 61, c at next level, right associativity).
Notation "c ;;; k" := (bind c (fun _ => k))
  (at level 61, right associativity).

(** A [Faker] object: each method draws on the random state and returns a
    string or raises. *)
Record Faker : Type := {
  faker_name : G -> G * (exn + str);
  faker_address : G -> G * (exn + str);
  faker_phone_number : G -> G * (exn + str)
}.

Definition call (method : G -> G * (exn + str)) : M str :=
  fun w => let (g, r) := method (rng w) in (World g (log w), r).

(** [Faker()] *)
Variable Faker_new : Faker.

Definition pattern_set := list (str * str).

Record PIIEntityRedactor : Type := {
  patterns : pattern_set;
  faker : Faker
}.

Definition _default_patterns : pattern_set :=
  [ (py "name", py "([A-Z][a-z]+) ([A-Z][a-z]+)");
    (py "address", py "\d+ [A-Za-z]+ St(?:reet)?");
    (py "phone_number", py "\(?\d{3}\)?[-.\s]?\d{3}[-.\s]?\d{4}") ].

(** Truth value of an optional [dict] argument: [None] and the empty
    [dict] are false. *)
Definition truthy (p : option pattern_set) : bool :=
  match p with
  | None => false
  | Some [] => false
  | Some (_ :: _) => true
  end.

(** [PIIEntityRedactor(patterns, faker_instance)] *)
Definition __init__ (patterns : option pattern_set)
    (faker_instance : option Faker) : PIIEntityRedactor :=
  {| patterns := match patterns with
                 | Some p => if truthy patterns then p else _default_patterns
                 | None => _default_patterns
                 end;
     faker := match faker_instance with
              | Some f => f
              | None => Faker_new
              end |}.

Definition REDACTED : str := py "[REDACTED]".

Definition _get_replacement (self : PIIEntityRedactor) (entity_type : str)
    : M str :=
  try_except
    (if str_eqb entity_type (py "name") then call (faker_name (faker self))
     else if str_eqb entity_type (py "address") then call (faker_address (faker self))
     else if str_eqb entity_type (py "phone_number") then
       call (faker_phone_number (faker self))
     else logging (No_replacement_defined entity_type) ;;; ret [])
    (fun e => logging (Fake_data_error entity_type e) ;;; ret REDACTED).

(** One turn of the loop of [redact_text]: the replacement is computed
    first, being an argument of [re.sub]. *)
Definition pass (self : PIIEntityRedactor) (item : str * str)
    (redacted_text : str) : M str :=
  let (entity_type, pattern) := item in
  repl <- _get_replacement self entity_type ;;
  lift (re_sub pattern repl redacted_text).

(** [for entity_type, pattern in self.patterns.items(): ...] *)
Fixpoint passes (self : PIIEntityRedactor) (items : pattern_set)
    (redacted_text : str) : M str :=
  match items with
  | [] => ret redacted_text
  | item :: rest =>
    t <- pass self item redacted_text ;;
    passes self rest t
  end.

Definition redact_text (self : PIIEntityRedactor) (text : str) : M str :=
  try_except (passes self (patterns self) text)
    (fun e =>
       match e with
       | re_error => logging (Regex_error e) ;;; raise e
       | _ => logging (Unexpected_redaction_error e) ;;; raise e
       end).

(** The file system and the JSON decoder [load_patterns] runs on:
    [open(file_path).read()] and [json.loads], whose failure is a
    [JSONDecodeError]. *)
Variable read_file : str -> exn + str.
Variable json_loads : str -> option json.

Definition json_load (file_path : str) : M json :=
  match read_file file_path with
  | inl e => raise e
  | inr content =>
    match json_loads content with
    | None => raise JSONDecodeError
    | Some v => ret v
    end
  end.

Definition load_patterns (file_path : str) : M json :=
  try_except
    (patterns <- json_load file_path ;;
     if negb (is_dict patterns) then raise TypeError
     else ret patterns)
    (fun e =>
       match e with
       | FileNotFoundError => logging (Pattern_file_not_found file_path) ;;; raise e
       | JSONDecodeError => logging (Invalid_JSON file_path) ;;; raise e
       | TypeError => logging (Logged_exception e) ;;; raise e
       | _ => logging (Unexpected_loading_error e) ;;; raise e
       end).

End Program.

(** ** A matching engine

    A backtracking matcher for a fragment of the pattern syntax that
    holds the default patterns: literals, [.], the classes [\d], [\s],
    [\w] and their complements, bracketed sets with ranges, capturing and
    [(?:...)] groups, alternation, the repeats [*], [+], [?], [{m}],
    [{m,n}], greedy or lazy, and the assertions [^], [$], [\A], [\Z],
    [\b], [\B].  The rest of the syntax (named groups, back-references,
    look-around, possessive repeats, inline flags, numeric escapes) is
    outside the fragment: [compile] answers [re.error] for it whether or
    not Python compiles it, and no run below uses such a rule. *)

Module Sre.

Inductive set_item : Type :=
| SChar (c : ascii)
| SRange (lo hi : ascii)
| SDigit
| SSpace
| SWord
| SNot (class : set_item).

Inductive anchor : Type :=
| At_beginning
| At_end
| At_end_string
| At_boundary
| At_non_boundary.

Inductive re : Type :=
| Empty
| Lit (c : ascii)
| AnyChar
| In (negate : bool) (items : list set_item)
| At (a : anchor)
| Cat (a b : re)
| Branch (a b : re)
| Repeat (greedy : bool) (min : nat) (max : option nat) (body : re)
| Group (index : nat) (body : re).

Fixpoint item_match (x : ascii) (i : set_item) : bool :=
  match i with
  | SChar c => Ascii.eqb x c
  | SRange lo hi => in_range lo hi x
  | SDigit => is_digit x
  | SSpace => is_space x
  | SWord => is_word x
  | SNot class => negb (item_match x class)
  end.

Fixpoint re_size (r : re) : nat :=
  match r with
  | Cat a b | Branch a b => S (re_size a + re_size b)
  | Repeat _ min _ a => S (min + re_size a)
  | Group _ a => S (re_size a)
  | _ => 1
  end.

(** *** Parsing a pattern *)

Definition one_of (cs : string) (c : ascii) : bool :=
  existsb (Ascii.eqb c) (list_ascii_of_string cs).

Fixpoint span_digits (s : str) : str * str :=
  match s with
  | c :: s' =>
    if is_digit c then let (ds, rest) := span_digits s' in (c :: ds, rest)
    else ([], s)
  | [] => ([], [])
  end.

(** What follows an opening brace: the bounds of [{m}], [{m,}], [{,n}],
    [{m,n}], or a count the compiler refuses as too large, or no repeat
    at all, the brace being an ordinary character. *)
Inductive braces : Type :=
| Not_a_repeat
| Too_large
| Bounds (lo : nat) (hi : option nat) (rest : str).

Definition MAXREPEAT : N := 4294967295.

Definition too_large (digits : str) : bool :=
  (MAXREPEAT <=? fold_left (fun acc c => 10 * acc + N.of_nat (digit_val c)) digits 0)%N.

Definition parse_braces (s : str) : braces :=
  let (lo, s1) := span_digits s in
  let bounds (hi rest : str) :=
    if too_large lo || too_large hi then Too_large
    else Bounds (int_of 10 lo)
                (match hi with [] => None | _ => Some (int_of 10 hi) end)
                rest in
  match s1 with
  | c :: s2 =>
    if Ascii.eqb c "," then
      let (hi, s3) := span_digits s2 in
      match s3 with
      | c' :: s4 => if Ascii.eqb c' "}" then bounds hi s4 else Not_a_repeat
      | [] => Not_a_repeat
      end
    else if Ascii.eqb c "}" then
      match lo with
      | [] => Not_a_repeat
      | _ => bounds lo s2
      end
    else Not_a_repeat
  | [] => Not_a_repeat
  end.

(** A repeat may not follow a repeat. *)
Definition no_second_repeat (r : re) (rest : str) : exn + (re * str) :=
  match rest with
  | c :: rest' =>
    if one_of "*+?" c then inl re_error
    else if Ascii.eqb c "{" then
      match parse_braces rest' with
      | Bounds _ _ _ => inl re_error
      | Too_large => inl OverflowError
      | Not_a_repeat => inr (r, rest)
      end
    else inr (r, rest)
  | [] => inr (r, rest)
  end.

(** The repeat of [a]: an assertion cannot be repeated, and a question
    mark after the repeat makes it lazy. *)
Definition repeat_of (lo : nat) (hi : option nat) (a : re) (rest : str)
    : exn + (re * str) :=
  match a with
  | At _ => inl re_error
  | _ =>
    match rest with
    | c :: rest' =>
      if Ascii.eqb c "?" then no_second_repeat (Repeat false lo hi a) rest'
      else no_second_repeat (Repeat true lo hi a) rest
    | [] => inr (Repeat true lo hi a, rest)
    end
  end.

Definition parse_quant (a : re) (s : str) : exn + (re * str) :=
  match s with
  | c :: rest =>
    if Ascii.eqb c "*" then repeat_of 0 None a rest
    else if Ascii.eqb c "+" then repeat_of 1 None a rest
    else if Ascii.eqb c "?" then repeat_of 0 (Some 1) a rest
    else if Ascii.eqb c "{" then
      match parse_braces rest with
      | Bounds lo hi rest' =>
        match hi with
        | Some h => if h <? lo then inl re_error
                    else repeat_of lo hi a rest'
        | None => repeat_of lo hi a rest'
        end
      | Too_large => inl OverflowError
      | Not_a_repeat => inr (a, s)
      end
    else inr (a, s)
  | [] => inr (a, s)
  end.

(** A backslash escape, in a set or outside: a class, or a character. *)
Definition parse_escape (in_set : bool) (c : ascii) : option set_item :=
  if Ascii.eqb c "d" then Some SDigit
  else if Ascii.eqb c "s" then Some SSpace
  else if Ascii.eqb c "w" then Some SWord
  else if Ascii.eqb c "D" then Some (SNot SDigit)
  else if Ascii.eqb c "S" then Some (SNot SSpace)
  else if Ascii.eqb c "W" then Some (SNot SWord)
  else if one_of "afnrtv" c then option_map SChar (ESCAPES c)
  else if in_set && Ascii.eqb c "b" then Some (SChar (ascii_of_nat 8))
  else if is_asciiletter c || is_digit c then None
  else Some (SChar c).

(** The members of a set as they are written, up to the closing bracket:
    characters and escapes. *)
Inductive set_token : Type :=
| Plain (c : ascii)
| Escaped (i : set_item).

Fixpoint set_tokens (s : str) (first : bool) (acc : list set_token)
    : option (list set_token * str) :=
  match s with
  | [] => None
  | c :: rest =>
    if Ascii.eqb c "]" && negb first then Some (rev acc, rest)
    else if Ascii.eqb c backslash then
      match rest with
      | e :: rest' =>
        match parse_escape true e with
        | Some i => set_tokens rest' false (Escaped i :: acc)
        | None => None
        end
      | [] => None
      end
    else set_tokens rest false (Plain c :: acc)
  end.

Definition token_item (t : set_token) : set_item :=
  match t with
  | Plain c => SChar c
  | Escaped i => i
  end.

(** [lo-hi] between two members is a range; its ends are characters, in
    order. *)
Fixpoint set_items (ts : list set_token) : option (list set_item) :=
  match ts with
  | [] => Some []
  | lo :: rest =>
    match rest with
    | Plain d :: hi :: rest' =>
      if Ascii.eqb d "-" then
        match token_item lo, token_item hi with
        | SChar l, SChar h =>
          if nat_of_ascii h <? nat_of_ascii l then None
          else option_map (cons (SRange l h)) (set_items rest')
        | _, _ => None
        end
      else option_map (cons (token_item lo)) (set_items rest)
    | _ => option_map (cons (token_item lo)) (set_items rest)
    end
  end.

Definition parse_set (s : str) : option (list set_item * str) :=
  match set_tokens s true [] with
  | Some (ts, rest) =>
    match set_items ts with
    | Some items => Some (items, rest)
    | None => None
    end
  | None => None
  end.

Definition item_re (i : set_item) : re :=
  match i with
  | SChar c => Lit c
  | _ => In false [i]
  end.

(** The escapes that are assertions, outside a set. *)
Definition parse_anchor (c : ascii) : option anchor :=
  if Ascii.eqb c "A" then Some At_beginning
  else if Ascii.eqb c "Z" then Some At_end_string
  else if Ascii.eqb c "b" then Some At_boundary
  else if Ascii.eqb c "B" then Some At_non_boundary
  else None.

Definition parsed := (exn + (re * str * nat))%type.

Fixpoint parse_alt (fuel : nat) (s : str) (ng : nat) {struct fuel} : parsed :=
  match fuel with
  | 0 => inl re_error
  | S f =>
    match parse_seq f s ng with
    | inr (a, rest, ng1) =>
      match rest with
      | c :: rest' =>
        if Ascii.eqb c "|" then
          match parse_alt f rest' ng1 with
          | inr (b, rest'', ng2) => inr (Branch a b, rest'', ng2)
          | inl e => inl e
          end
        else inr (a, rest, ng1)
      | [] => inr (a, rest, ng1)
      end
    | inl e => inl e
    end
  end
with parse_seq (fuel : nat) (s : str) (ng : nat) {struct fuel} : parsed :=
  match fuel with
  | 0 => inl re_error
  | S f =>
    match s with
    | [] => inr (Empty, s, ng)
    | c :: _ =>
      if one_of "|)" c then inr (Empty, s, ng)
      else
        match parse_atom f s ng with
        | inr (a, rest, ng1) =>
          match parse_quant a rest with
          | inr (qa, rest1) =>
            match parse_seq f rest1 ng1 with
            | inr (b, rest2, ng2) => inr (Cat qa b, rest2, ng2)
            | inl e => inl e
            end
          | inl e => inl e
          end
        | inl e => inl e
        end
    end
  end
with parse_atom (fuel : nat) (s : str) (ng : nat) {struct fuel} : parsed :=
  match fuel with
  | 0 => inl re_error
  | S f =>
    match s with
    | [] => inl re_error
    | c :: rest =>
      if Ascii.eqb c "(" then
        let close (wrap : re -> re) (r : parsed) : parsed :=
          match r with
          | inr (a, x :: rest', ng1) =>
            if Ascii.eqb x ")" then inr (wrap a, rest', ng1) else inl re_error
          | inr (_, [], _) => inl re_error
          | inl e => inl e
          end in
        match rest with
        | q :: rest1 =>
          if Ascii.eqb q "?" then
            match rest1 with
            | x :: rest2 =>
              if Ascii.eqb x ":" then close (fun a => a) (parse_alt f rest2 ng)
              else inl re_error
            | [] => inl re_error
            end
          else close (Group (S ng)) (parse_alt f rest (S ng))
        | [] => inl re_error
        end
      else if Ascii.eqb c "[" then
        match rest with
        | x :: rest1 =>
          if Ascii.eqb x "^" then
            match parse_set rest1 with
            | Some (items, rest2) => inr (In true items, rest2, ng)
            | None => inl re_error
            end
          else
            match parse_set rest with
            | Some (items, rest2) => inr (In false items, rest2, ng)
            | None => inl re_error
            end
        | [] => inl re_error
        end
      else if Ascii.eqb c backslash then
        match rest with
        | e :: rest1 =>
          match parse_anchor e with
          | Some a => inr (At a, rest1, ng)
          | None =>
            match parse_escape false e with
            | Some i => inr (item_re i, rest1, ng)
            | None => inl re_error
            end
          end
        | [] => inl re_error
        end
      else if Ascii.eqb c "." then inr (AnyChar, rest, ng)
      else if Ascii.eqb c "^" then inr (At At_beginning, rest, ng)
      else if Ascii.eqb c "$" then inr (At At_end, rest, ng)
      else if one_of "*+?" c then inl re_error
      else if Ascii.eqb c "{" then
        match parse_braces rest with
        | Bounds _ _ _ => inl re_error
        | Too_large => inl OverflowError
        | Not_a_repeat => inr (Lit c, rest, ng)
        end
      else inr (Lit c, rest, ng)
    end
  end.

Record compiled : Type := {
  body : re;
  ngroups : nat
}.

Definition compile (pattern : str) : exn + compiled :=
  match parse_alt (4 * length pattern + 4) pattern 0 with
  | inr (r, [], ng) => inr {| body := r; ngroups := ng |}
  | inr (_, _ :: _, _) => inl re_error
  | inl e => inl e
  end.

(** *** Matching *)

Definition spans := list (option (nat * nat)).

Fixpoint set_span (g : spans) (i : nat) (sp : nat * nat) : spans :=
  match g, i with
  | [], _ => []
  | _ :: g', 0 => Some sp :: g'
  | x :: g', S i' => x :: set_span g' i' sp
  end.

Definition cont := str -> nat -> spans -> option (nat * spans).

Definition is_zero (max : option nat) : bool :=
  match max with
  | Some 0 => true
  | _ => false
  end.

Definition began_at (last : option nat) (pos : nat) : bool :=
  match last with
  | Some p => p =? pos
  | None => false
  end.

Definition word_here (s : str) : bool :=
  match s with
  | c :: _ => is_word c
  | [] => false
  end.

(** Whether the assertion holds at [pos] of [text], [s] being the text
    from [pos] on.  A word boundary has a word character on one side
    only; the empty text has none, and no place that is not one either. *)
Definition at_anchor (a : anchor) (text s : str) (pos : nat) : bool :=
  let before := match pos with
                | 0 => false
                | S p => word_here (skipn p text)
                end in
  let nonempty := match text with [] => false | _ => true end in
  match a with
  | At_beginning => pos =? 0
  | At_end =>
    match s with
    | [] => true
    | [c] => nat_of_ascii c =? 10
    | _ => false
    end
  | At_end_string => match s with [] => true | _ => false end
  | At_boundary => nonempty && xorb before (word_here s)
  | At_non_boundary => nonempty && negb (xorb before (word_here s))
  end.

(** [run fuel text r s pos g last k]: match [r] against [s], the text
    from position [pos] on, and hand what is left to [k]; alternatives are
    tried in order, the first success wins.  In a repeat, [min] and [max]
    count the iterations still due and still allowed, and [last] is where
    the latest iteration beyond the due ones began: no further one is
    tried at that very position.  A greedy repeat tries one more iteration
    before it goes on, a lazy one goes on first. *)
Fixpoint run (fuel : nat) (text : str) (r : re) (s : str) (pos : nat) (g : spans)
    (last : option nat) (k : cont) {struct fuel} : option (nat * spans) :=
  match fuel with
  | 0 => None
  | S f =>
    match r with
    | Empty => k s pos g
    | Lit c =>
      match s with
      | x :: s' => if Ascii.eqb x c then k s' (S pos) g else None
      | [] => None
      end
    | AnyChar =>
      match s with
      | x :: s' => if nat_of_ascii x =? 10 then None else k s' (S pos) g
      | [] => None
      end
    | In negate items =>
      match s with
      | x :: s' =>
        if xorb negate (existsb (item_match x) items) then k s' (S pos) g
        else None
      | [] => None
      end
    | At a => if at_anchor a text s pos then k s pos g else None
    | Cat a b =>
      run f text a s pos g None (fun s' pos' g' => run f text b s' pos' g' None k)
    | Branch a b =>
      match run f text a s pos g None k with
      | Some x => Some x
      | None => run f text b s pos g None k
      end
    | Repeat greedy min max a =>
      let iterate (last' : option nat) :=
        run f text a s pos g None
          (fun s' pos' g' =>
             run f text (Repeat greedy (pred min) (option_map pred max) a)
                 s' pos' g' last' k) in
      let done := is_zero max || began_at last pos in
      match min with
      | S _ => iterate last
      | 0 =>
        if greedy then
          if done then k s pos g
          else
            match iterate (Some pos) with
            | Some x => Some x
            | None => k s pos g
            end
        else
          match k s pos g with
          | Some x => Some x
          | None => if done then None else iterate (Some pos)
          end
      end
    | Group index a =>
      run f text a s pos g None
        (fun s' pos' g' => k s' pos' (set_span g' (pred index) (pos, pos')))
    end
  end.

Definition accept (pos : nat) (adv : bool) : cont :=
  fun _ e g => if adv && (e =? pos) then None else Some (e - pos, g).

Definition match_at (r : compiled) (s : str) (pos : nat) (adv : bool)
    : option (nat * spans) :=
  run (re_size (body r) * (length s + 2)) s (body r) (skipn pos s) pos
      (repeat None (ngroups r)) None (accept pos adv).

Lemma run_reaches (fuel : nat) (text : str) :
  forall r s pos g last (k : cont) x,
    run fuel text r s pos g last k = Some x ->
    exists s' pos' g', pos <= pos' /\ k s' pos' g' = Some x.
Proof.
  induction fuel as [|f IH]; intros r s pos g last k x H; [discriminate|].
  destruct r; cbn [run] in H.
  - exists s, pos, g. auto.
  - destruct s as [|y s']; [discriminate|].
    destruct (Ascii.eqb y c); [|discriminate].
    exists s', (S pos), g. auto.
  - destruct s as [|y s']; [discriminate|].
    destruct (nat_of_ascii y =? 10); [discriminate|].
    exists s', (S pos), g. auto.
  - destruct s as [|y s']; [discriminate|].
    destruct (xorb negate _); [|discriminate].
    exists s', (S pos), g. auto.
  - destruct (at_anchor a text s pos); [|discriminate].
    exists s, pos, g. auto.
  - apply IH in H. destruct H as (s1 & p1 & g1 & Hle & H).
    apply IH in H. destruct H as (s2 & p2 & g2 & Hle2 & H).
    exists s2, p2, g2. split; [lia|assumption].
  - destruct (run f text r1 s pos g None k) eqn:H1.
    + inversion H; subst. eapply IH; eassumption.
    + eapply IH; eassumption.
  - assert (Hiter : forall last' y,
      run f text r s pos g None
        (fun s' pos' g' =>
           run f text (Repeat greedy (pred min) (option_map pred max) r)
               s' pos' g' last' k)
      = Some y ->
      exists s' pos' g', pos <= pos' /\ k s' pos' g' = Some y).
    { intros last' y Hy. apply IH in Hy. destruct Hy as (s1 & p1 & g1 & Hle & Hy).
      apply IH in Hy. destruct Hy as (s2 & p2 & g2 & Hle2 & Hy).
      exists s2, p2, g2. split; [lia|assumption]. }
    destruct min as [|min'].
    + destruct greedy.
      * destruct (is_zero max || began_at last pos).
        -- exists s, pos, g. auto.
        -- match type of H with
           | match ?it with _ => _ end = _ => destruct it as [y|] eqn:H1
           end.
           ++ inversion H; subst. apply (Hiter (Some pos)). exact H1.
           ++ exists s, pos, g. auto.
      * destruct (k s pos g) as [y|] eqn:Hk.
        -- inversion H; subst. exists s, pos, g. auto.
        -- destruct (is_zero max || began_at last pos); [discriminate|].
           apply (Hiter (Some pos)). exact H.
    + apply (Hiter last). exact H.
  - apply IH in H. destruct H as (s1 & p1 & g1 & Hle & H).
    exists s1, p1, (set_span g1 (pred index) (pos, p1)). auto.
Qed.

Lemma match_at_nonempty r s pos n g :
  match_at r s pos true = Some (n, g) -> 0 < n.
Proof.
  unfold match_at. intros H. apply run_reaches in H.
  destruct H as (s' & e & g' & Hle & H). unfold accept in H. simpl in H.
  destruct (e =? pos) eqn:He; [discriminate|].
  apply Nat.eqb_neq in He. inversion H. lia.
Qed.

#[export] Instance engine : RegexEngine := {
  regex := compiled;
  re_compile := compile;
  re_groups := ngroups;
  re_groupindex := fun _ => [];
  match_at := match_at;
  match_at_advance := match_at_nonempty
}.

End Sre.


(** ** A JSON decoder and a file system

    The decoder reads objects, arrays, strings with the single-character
    escapes, integers and the three constants; the file system is a list of
    named files. *)

Module Json.

Definition dquote : ascii := ascii_of_nat 34.

Definition is_ws (c : ascii) : bool :=
  existsb (Nat.eqb (nat_of_ascii c)) [32; 9; 10; 13].

Fixpoint skip_ws (s : str) : str :=
  match s with
  | c :: s' => if is_ws c then skip_ws s' else s
  | [] => []
  end.

Definition unescape (c : ascii) : option ascii :=
  if Ascii.eqb c dquote || Ascii.eqb c "/" then Some c
  else if Sre.one_of "bfnrt\" c then ESCAPES c
  else None.

(** The characters of a string up to its closing quote. *)
Fixpoint string_body (s : str) (acc : str) : option (str * str) :=
  match s with
  | [] => None
  | c :: s' =>
    if Ascii.eqb c dquote then Some (rev acc, s')
    else if Ascii.eqb c backslash then
      match s' with
      | e :: s'' =>
        match unescape e with
        | Some x => string_body s'' (x :: acc)
        | None => None
        end
      | [] => None
      end
    else if nat_of_ascii c <? 32 then None
    else string_body s' (c :: acc)
  end.

Fixpoint strip_prefix (p s : str) : option str :=
  match p, s with
  | [], _ => Some s
  | x :: p', y :: s' => if Ascii.eqb x y then strip_prefix p' s' else None
  | _ :: _, [] => None
  end.

(** An integer literal; fractions and exponents are not read. *)
Definition integer (s : str) : option (str * str) :=
  let (sign, s1) :=
    match s with
    | c :: s' => if Ascii.eqb c "-" then ([c], s') else ([], s)
    | [] => ([], s)
    end in
  let (ds, rest) := Sre.span_digits s1 in
  match ds with
  | [] => None
  | d :: ds' =>
    if Ascii.eqb d "0" && negb (length ds' =? 0) then None
    else
      match rest with
      | c :: _ => if Sre.one_of ".eE" c then None else Some (sign ++ ds, rest)
      | [] => Some (sign ++ ds, rest)
      end
  end.

(** [d[k] = v] on the members of an object: a repeated key keeps its place
    and takes the new value. *)
Fixpoint dict_set (k : str) (v : json) (d : list (str * json)) : list (str * json) :=
  match d with
  | [] => [(k, v)]
  | (k', v') :: d' =>
    if str_eqb k k' then (k, v) :: d' else (k', v') :: dict_set k v d'
  end.

Fixpoint value (fuel : nat) (s : str) {struct fuel} : option (json * str) :=
  match fuel with
  | 0 => None
  | S f =>
    match skip_ws s with
    | [] => None
    | c :: rest =>
      if Ascii.eqb c "{" then
        match skip_ws rest with
        | x :: rest' =>
          if Ascii.eqb x "}" then Some (JObject [], rest')
          else members f (skip_ws rest) []
        | [] => None
        end
      else if Ascii.eqb c "[" then
        match skip_ws rest with
        | x :: rest' =>
          if Ascii.eqb x "]" then Some (JArray [], rest')
          else items f (skip_ws rest) []
        | [] => None
        end
      else if Ascii.eqb c dquote then
        match string_body rest [] with
        | Some (v, rest') => Some (JString v, rest')
        | None => None
        end
      else
        match strip_prefix (py "true") (c :: rest),
              strip_prefix (py "false") (c :: rest),
              strip_prefix (py "null") (c :: rest) with
        | Some rest', _, _ => Some (JBool true, rest')
        | _, Some rest', _ => Some (JBool false, rest')
        | _, _, Some rest' => Some (JNull, rest')
        | None, None, None =>
          match integer (c :: rest) with
          | Some (lit, rest') => Some (JNumber lit, rest')
          | None => None
          end
        end
    end
  end
with members (fuel : nat) (s : str) (acc : list (str * json)) {struct fuel}
    : option (json * str) :=
  match fuel with
  | 0 => None
  | S f =>
    match s with
    | q :: body =>
      if Ascii.eqb q dquote then
        match string_body body [] with
        | Some (k, rest) =>
          match skip_ws rest with
          | c :: rest1 =>
            if Ascii.eqb c ":" then
              match value f rest1 with
              | Some (v, rest2) =>
                match skip_ws rest2 with
                | d :: rest3 =>
                  if Ascii.eqb d "," then members f (skip_ws rest3) (dict_set k v acc)
                  else if Ascii.eqb d "}" then Some (JObject (dict_set k v acc), rest3)
                  else None
                | [] => None
                end
              | None => None
              end
            else None
          | [] => None
          end
        | None => None
        end
      else None
    | [] => None
    end
  end
with items (fuel : nat) (s : str) (acc : list json) {struct fuel}
    : option (json * str) :=
  match fuel with
  | 0 => None
  | S f =>
    match value f s with
    | Some (v, rest) =>
      match skip_ws rest with
      | d :: rest1 =>
        if Ascii.eqb d "," then items f rest1 (acc ++ [v])
        else if Ascii.eqb d "]" then Some (JArray (acc ++ [v]), rest1)
        else None
      | [] => None
      end
    | None => None
    end
  end.

Definition loads (s : str) : option json :=
  match value (2 * length s + 2) s with
  | Some (v, rest) =>
    match skip_ws rest with
    | [] => Some v
    | _ :: _ => None
    end
  | None => None
  end.

(** A file system: the files by name. *)
Definition files := list (str * str).

Fixpoint read (fs : files) (file_path : str) : exn + str :=
  match fs with
  | [] => inl FileNotFoundError
  | (name, content) :: fs' =>
    if str_eqb file_path name then inr content else read fs' file_path
  end.

(** A string literal of the JSON text: [s] between double quotes. *)
Definition quoted (s : string) : str := dquote :: py s ++ [dquote].

End Json.

(** ** Notions the properties are stated with *)

Notation "x <- c ;; k" := (bind c (fun x => k))
  (at level 61, c at next level, right associativity).

Section Notions.
Context {E : RegexEngine}.

(** The leftmost non-overlapping matches of [r] in [s] from [pos] on: no
    attempt succeeds before a listed match, each listed match is what the
    matcher finds at its start, the search resumes at its end, and no
    attempt succeeds after the last one.  An empty match may not be
    followed by another empty match at the same place. *)
Inductive leftmost (r : regex) (s : str) : nat -> bool -> list re_match -> Prop :=
| leftmost_done pos adv :
    (forall p, pos <= p <= length s ->
               match_at r s p (adv && (p =? pos)) = None) ->
    leftmost r s pos adv []
| leftmost_next pos adv b n g ms :
    pos <= b <= length s ->
    (forall p, pos <= p < b -> match_at r s p (adv && (p =? pos)) = None) ->
    match_at r s b (adv && (b =? pos)) = Some (n, g) ->
    leftmost r s (b + n) (n =? 0) ms ->
    leftmost r s pos adv (MatchObj b (b + n) g :: ms).

(** No substring of [s] matches [r]. *)
Definition no_match (r : regex) (s : str) : Prop :=
  forall p, p <= length s -> match_at r s p false = None.

(** The matches lie one after the other from [i] on. *)
Fixpoint ordered (i : nat) (ms : list re_match) : Prop :=
  match ms with
  | [] => True
  | m :: ms' => i <= m_start m /\ m_start m <= m_end m /\ ordered (m_end m) ms'
  end.

(** The text outside the matches: before the first, between consecutive
    ones, after the last. *)
Fixpoint gaps (s : str) (i : nat) (ms : list re_match) : list str :=
  match ms with
  | [] => [skipn i s]
  | m :: ms' => slice s i (m_start m) :: gaps s (m_end m) ms'
  end.

(** [g0 ++ f1 ++ g1 ++ f2 ++ ...] *)
Fixpoint interleave (gs fills : list str) : str :=
  match gs with
  | [] => []
  | g :: gs' =>
    match fills with
    | [] => g ++ interleave gs' []
    | f :: fills' => g ++ f ++ interleave gs' fills'
    end
  end.

Definition matched_text (s : str) (m : re_match) : str :=
  slice s (m_start m) (m_end m).

Definition has_backslash (v : str) : bool := existsb (Ascii.eqb backslash) v.

Variable G : Type.

(** The substitution the specification words describe, which is
    [re.sub(pattern, lambda m: self._get_replacement(entity_type), text)]:
    one generated value for each match, inserted as it is. *)
Fixpoint generate_each (self : PIIEntityRedactor G) (entity_type : str)
    (ms : list re_match) : M G (list str) :=
  match ms with
  | [] => ret []
  | _ :: ms' =>
    v <- _get_replacement self entity_type ;;
    vs <- generate_each self entity_type ms' ;;
    ret (v :: vs)
  end.

Definition pass_per_match (self : PIIEntityRedactor G) (item : str * str)
    (text : str) : M G str :=
  let (entity_type, pattern) := item in
  match re_compile pattern with
  | inl e => raise e
  | inr r =>
    vs <- generate_each self entity_type (finditer r text) ;;
    ret (interleave (gaps text 0 (finditer r text)) vs)
  end.

(** A run of [redact_text] that returns: one pass for each category, in the
    order of the pattern set, each on the text the one before left. *)
Inductive in_order (self : PIIEntityRedactor G)
  : pattern_set -> str -> world G -> world G -> str -> Prop :=
| in_order_nil text w : in_order self [] text w w text
| in_order_cons item rest text w w1 t1 w2 out :
    pass self item text w = (w1, inr t1) ->
    in_order self rest t1 w1 w2 out ->
    in_order self (item :: rest) text w w2 out.

(** Whatever [_get_replacement] returns for the category is a replacement
    template [re.sub] accepts for the rule [r]. *)
Definition well_formed_replacements (self : PIIEntityRedactor G)
    (entity_type : str) (r : regex) : Prop :=
  forall w w' repl,
    _get_replacement self entity_type w = (w', inr repl) ->
    exists t, parse_template (re_groups r) (re_groupindex r) repl = inr t.

(** The record [redact_text] logs for an exception before raising it
    again. *)
Definition redaction_record (e : exn) : log_record :=
  match e with
  | re_error => Regex_error e
  | _ => Unexpected_redaction_error e
  end.

(** The category has a generator of its own. *)
Definition known_category (entity_type : str) : bool :=
  str_eqb entity_type (py "name") || str_eqb entity_type (py "address")
  || str_eqb entity_type (py "phone_number").

(** The method [_get_replacement] calls for a category. *)
Definition method_of (f : Faker G) (entity_type : str)
    : option (G -> G * (exn + str)) :=
  if str_eqb entity_type (py "name") then Some (faker_name f)
  else if str_eqb entity_type (py "address") then Some (faker_address f)
  else if str_eqb entity_type (py "phone_number") then Some (faker_phone_number f)
  else None.

End Notions.

(** A mapping of string to string. *)
Definition is_str_mapping (v : json) : bool :=
  match v with
  | JObject members =>
    forallb (fun kv => match snd kv with JString _ => true | _ => false end) members
  | _ => false
  end.

(** ** Generators to run the program with *)

Module Fakers.

Definition numbered (prefix : string) (g : nat) : nat * (exn + str) :=
  (S g, inr (py prefix ++ [ascii_of_nat (48 + g mod 10)])).

(** Each call returns the next value of a series: [Name0], [Name1], ... *)
Definition counting : Faker nat :=
  {| faker_name := numbered "Name";
     faker_address := numbered "Addr";
     faker_phone_number := numbered "Tel" |}.

(** [name()] raises on its first call only. *)
Definition flaky : Faker nat :=
  {| faker_name := fun g =>
       if g =? 0 then (S g, inl (OtherException (py "no locale data")))
       else numbered "Name" g;
     faker_address := numbered "Addr";
     faker_phone_number := numbered "Tel" |}.

(** [name()] returns [v]; the other methods return plain values. *)
Definition naming (v : str) : Faker nat :=
  {| faker_name := fun g => (S g, inr v);
     faker_address := fun g => (S g, inr (py "1 Elm Road"));
     faker_phone_number := fun g => (S g, inr (py "000-0000")) |}.

End Fakers.

(** ** Engines and inputs to run the program on *)

Module Examples.

#[local] Existing Instance Sre.engine.

Definition w0 : world nat := World 0 [].

(** [PIIEntityRedactor(faker_instance=f)] and
    [PIIEntityRedactor(patterns=p, faker_instance=f)] *)
Definition default_engine (f : Faker nat) : PIIEntityRedactor nat :=
  __init__ Fakers.counting None (Some f).

Definition custom_engine (p : pattern_set) (f : Faker nat) : PIIEntityRedactor nat :=
  __init__ Fakers.counting (Some p) (Some f).

Definition name_item : str * str :=
  (py "name", py "([A-Z][a-z]+) ([A-Z][a-z]+)").

Definition email_item : str * str :=
  (py "email", py "[a-zA-Z0-9._%+-]+@[a-zA-Z0-9.-]+\.[a-zA-Z]{2,}").

(** A rule with a parenthesis left open. *)
Definition broken_item : str * str := (py "zip", py "(\d{5}").

(** A rule with a parenthesis left open and a repetition count of 2^32. *)
Definition overflow_item : str * str := (py "zip", py "(\d{4294967296}").

Definition compiled_or_empty (pattern : str) : Sre.compiled :=
  match Sre.compile pattern with
  | inr r => r
  | inl _ => {| Sre.body := Sre.Empty; Sre.ngroups := 0 |}
  end.

Definition name_rule : Sre.compiled :=
  Eval vm_compute in compiled_or_empty (snd name_item).


Definition two_names : str := py "John Doe met Jane Roe".

(** The content of a patterns file whose one value is a number:
    [{"ssn": 9}]. *)
Definition numeric_config : str :=
  py "{" ++ Json.quoted "ssn" ++ py ": 9}".

Definition disk : Json.files :=
  [ (py "numeric.json", numeric_config);
    (py "email.json", py "{" ++ Json.quoted "email" ++ py ": "
                      ++ Json.quoted "[a-z]+@[a-z]+" ++ py "}");
    (py "list.json", py "[1, 2]");
    (py "cut.json", py "{" ++ Json.quoted "email" ++ py ": ") ].

End Examples.

(** ** Pattern sets as [load_patterns] returns them

    [main] hands the decoded mapping to the constructor as it is: the
    engine then holds a JSON value, whose members need not be strings. *)

Section Loaded.
Context {E : RegexEngine}.
Variable G : Type.

(** Truth value of a decoded value: [None], [False], zero, and the empty
    string, list and mapping are false. *)
Definition zero_literal (literal : str) : bool :=
  (fix mantissa (l : str) : bool :=
     match l with
     | [] => true
     | c :: l' =>
       if Sre.one_of "eE" c then true
       else negb (in_range "1" "9" c) && mantissa l'
     end) literal.

Definition truthy_json (v : json) : bool :=
  match v with
  | JNull => false
  | JBool b => b
  | JNumber literal => negb (zero_literal literal)
  | JString s => negb (length s =? 0)
  | JArray items => negb (length items =? 0)
  | JObject members => negb (length members =? 0)
  end.

Definition default_patterns_loaded : json :=
  JObject (map (fun item => (fst item, JString (snd item))) _default_patterns).

Record LoadedRedactor : Type := {
  held_patterns : json;
  held_faker : Faker G
}.

Variable Faker_new : Faker G.

(** [PIIEntityRedactor(patterns=patterns)] *)
Definition init_loaded (patterns : option json)
    (faker_instance : option (Faker G)) : LoadedRedactor :=
  {| held_patterns := match patterns with
                      | Some v => if truthy_json v then v else default_patterns_loaded
                      | None => default_patterns_loaded
                      end;
     held_faker := match faker_instance with
                   | Some f => f
                   | None => Faker_new
                   end |}.

(** The redactor as [_get_replacement] sees it: only the generator is
    read. *)
Definition generator_of (self : LoadedRedactor) : PIIEntityRedactor G :=
  {| patterns := []; faker := held_faker self |}.

(** [self.patterns.items()]: only a mapping has the method. *)
Definition items_of (v : json) : exn + list (str * json) :=
  match v with
  | JObject members => inr members
  | _ => inl (OtherException (py "AttributeError"))
  end.

(** [re.sub] on a first argument of any decoded type: anything but a
    string is a [TypeError]. *)
Definition re_sub_loaded (pattern : json) (repl string : str) : exn + str :=
  match pattern with
  | JString p => re_sub p repl string
  | _ => inl TypeError
  end.

Definition pass_loaded (self : LoadedRedactor) (item : str * json)
    (redacted_text : str) : M G str :=
  let (entity_type, pattern) := item in
  repl <- _get_replacement (generator_of self) entity_type ;;
  lift (re_sub_loaded pattern repl redacted_text).

Fixpoint passes_loaded (self : LoadedRedactor) (items : list (str * json))
    (redacted_text : str) : M G str :=
  match items with
  | [] => ret redacted_text
  | item :: rest =>
    t <- pass_loaded self item redacted_text ;;
    passes_loaded self rest t
  end.

(** [redact_text] of such an engine. *)
Definition redact_text_loaded (self : LoadedRedactor) (text : str) : M G str :=
  try_except
    (items <- lift (items_of (held_patterns self)) ;;
     passes_loaded self items text)
    (fun e =>
       match e with
       | re_error => bind (logging (Regex_error e)) (fun _ => raise e)
       | _ => bind (logging (Unexpected_redaction_error e)) (fun _ => raise e)
       end).

End Loaded.

(** ** The command line ([main])

    [main] is modelled from the outcome of [parser.parse_args()], its
    first step, on: the arguments when it returns, or the status it exits
    with; and in the environment the process runs in. *)

Record Namespace : Type := {
  args_input_text : option str;
  args_patterns : option str;
  args_output : option str;
  args_log_file : option str
}.

Inductive stdout_event : Type :=
| Help_printed
| Printed (text : str).

(** What [parser.parse_args()] does: it returns the arguments, or it
    exits (status 0 after printing the help for [-h], status 2 for
    arguments it rejects). *)
Inductive parse_result : Type :=
| Parsed (args : Namespace)
| Parse_exit (code : nat) (printed : list stdout_event).

(** [if args.x:] on an optional string argument: [None] and the empty
    string are false. *)
Definition given (a : option str) : option str :=
  match a with
  | Some (c :: s) => Some (c :: s)
  | _ => None
  end.

(** The environment: the files to read, the JSON decoder, the standard
    input; for the output file the exception [open(output, "w")] raises,
    if any, and the exception writing the text to it (or closing it)
    raises, if any, with what the file is left holding; for the log file
    the exception opening it raises, if any.  Reading the standard input
    and printing to the standard output are taken to succeed. *)
Record Environment : Type := {
  env_read_file : str -> exn + str;
  env_json_loads : str -> option json;
  env_isatty : bool;
  env_stdin : str;
  env_open_output : str -> option exn;
  env_write : str -> str -> option (exn * str);
  env_log_handler : str -> option exn
}.

(** [isinstance(e, IOError)] *)
Definition is_ioerror (e : exn) : bool :=
  match e with
  | FileNotFoundError | OSError => true
  | _ => false
  end.

(** What reaches the logging system during [main]. *)
Inductive cli_record : Type :=
| Core (r : log_record)           (* logged by [load_patterns] or the redactor *)
| Text_written (output : str)     (* info: Redacted text written to ... *)
| Write_error (e : exn)           (* error: Error writing to output file: ... *)
| Error_logged (e : exn)          (* logging.error(e) *)
| Unhandled_error (e : exn).      (* logging.exception("An unhandled error occurred.") *)

(** [sys.exit(code)] raises [SystemExit], which no [except Exception]
    catches. *)
Inductive signal : Type :=
| Exception (e : exn)
| SystemExit (code : nat).

Inductive status : Type :=
| Returned
| Exited (code : nat)
| Raised (e : exn).

Section Main.
Context {E : RegexEngine}.
Variable G : Type.
Variable Faker_new : Faker G.

(** The process: the generator, the log, what was printed, and for each
    step that touched a file the content it left in it. *)
Record process : Type := Process {
  p_rng : G;
  p_log : list cli_record;
  p_stdout : list stdout_event;
  p_files : list (str * str)
}.

Definition P (A : Type) : Type := process -> process * (signal + A).

Definition pret {A} (x : A) : P A := fun p => (p, inr x).
Definition pbind {A B} (c : P A) (f : A -> P B) : P B :=
  fun p =>
    match c p with
    | (p', inl sig) => (p', inl sig)
    | (p', inr x) => f x p'
    end.
Definition sys_exit {A} (code : nat) : P A := fun p => (p, inl (SystemExit code)).
Definition praise {A} (e : exn) : P A := fun p => (p, inl (Exception e)).
Definition cli_log (r : cli_record) : P unit :=
  fun p => (Process (p_rng p) (p_log p ++ [r]) (p_stdout p) (p_files p), inr tt).
Definition print (e : stdout_event) : P unit :=
  fun p => (Process (p_rng p) (p_log p) (p_stdout p ++ [e]) (p_files p), inr tt).
Definition file_holds (output content : str) : P unit :=
  fun p => (Process (p_rng p) (p_log p) (p_stdout p) (p_files p ++ [(output, content)]),
            inr tt).

(** A computation of the redactor or of [load_patterns] inside the
    process: its records follow those already logged. *)
Definition in_world {A} (c : M G A) : P A :=
  fun p =>
    let (w, r) := c (World (p_rng p) []) in
    (Process (rng w) (p_log p ++ map Core (log w)) (p_stdout p) (p_files p),
     match r with
     | inl e => inl (Exception e)
     | inr x => inr x
     end).

Notation "x <~ c ;; k" := (pbind c (fun x => k))
  (at level 61, c at next level, right associativity).

(** The inner [try]: an [IOError] is logged and ends the process, any
    other exception goes on to the handlers of [main]. *)
Definition write_failed (e : exn) : P unit :=
  if is_ioerror e then _ <~ cli_log (Write_error e) ;; sys_exit 1
  else praise e.

(** [with open(args.output, "w") as f: f.write(redacted_text)], then the
    record of it: opening creates or empties the file. *)
Definition write_output (env : Environment) (output redacted_text : str) : P unit :=
  match env_open_output env output with
  | Some e => write_failed e
  | None =>
    _ <~ file_holds output [] ;;
    match env_write env output redacted_text with
    | Some (e, remains) => _ <~ file_holds output remains ;; write_failed e
    | None =>
      _ <~ file_holds output redacted_text ;;
      cli_log (Text_written output)
    end
  end.

(** The body of the [try] of [main]. *)
Definition main_body (args : Namespace) (env : Environment) : P unit :=
  patterns <~ match given (args_patterns args) with
              | Some file_path =>
                v <~ in_world (load_patterns (env_read_file env)
                                             (env_json_loads env) file_path) ;;
                pret (Some v)
              | None => pret None
              end ;;
  let redactor := init_loaded Faker_new patterns None in
  input_text <~ match given (args_input_text args) with
                | Some text => pret text
                | None =>
                  if negb (env_isatty env) then pret (env_stdin env)
                  else _ <~ print Help_printed ;; sys_exit 1
                end ;;
  redacted_text <~ in_world (redact_text_loaded redactor input_text) ;;
  match given (args_output args) with
  | Some output => write_output env output redacted_text
  | None => print (Printed redacted_text)
  end.

Definition finish (r : process * (signal + unit)) : process * status :=
  match r with
  | (p, inr _) => (p, Returned)
  | (p, inl (SystemExit code)) => (p, Exited code)
  | (p, inl (Exception e)) =>
    match e with
    | FileNotFoundError | JSONDecodeError | TypeError =>
      (fst (cli_log (Error_logged e) p), Exited 1)
    | _ => (fst (cli_log (Unhandled_error e) p), Exited 1)
    end
  end.

Definition main (parsed : parse_result) (env : Environment) (p : process)
    : process * status :=
  match parsed with
  | Parse_exit code printed =>
    (Process (p_rng p) (p_log p) (p_stdout p ++ printed) (p_files p), Exited code)
  | Parsed args =>
    match match given (args_log_file args) with
          | Some log_file => env_log_handler env log_file
          | None => None
          end with
    | Some e => (p, Raised e)
    | None => finish (main_body args env p)
    end
  end.

End Main.

(** ** Notions for the further properties *)

(** Both computations return, or both raise the same exception. *)
Definition same_outcome {A B} (r1 : exn + A) (r2 : exn + B) : Prop :=
  match r1, r2 with
  | inl e1, inl e2 => e1 = e2
  | inr _, inr _ => True
  | _, _ => False
  end.

(** The world after [_get_replacement] was called once for each category
    of [items], in order. *)
Fixpoint effects_of {G} (self : PIIEntityRedactor G) (items : pattern_set)
    (w : world G) : world G :=
  match items with
  | [] => w
  | (entity_type, _) :: rest =>
    effects_of self rest (fst (_get_replacement self entity_type w))
  end.

(** A pattern set as the mapping that decodes to it. *)
Definition as_loaded (items : pattern_set) : json :=
  JObject (map (fun item => (fst item, JString (snd item))) items).

Definition is_string (v : json) : bool :=
  match v with
  | JString _ => true
  | _ => false
  end.

(** The arguments with every empty string taken for a missing argument. *)
Definition normalize (args : Namespace) : Namespace :=
  {| args_input_text := given (args_input_text args);
     args_patterns := given (args_patterns args);
     args_output := given (args_output args);
     args_log_file := given (args_log_file args) |}.

(** The text [main] redacts: the argument, or the standard input when
    there is no argument and the input is not a terminal. *)
Definition input_of (args : Namespace) (env : Environment) : option str :=
  match given (args_input_text args) with
  | Some text => Some text
  | None => if env_isatty env then None else Some (env_stdin env)
  end.

(** The log file, if one is asked for, can be opened. *)
Definition log_file_ok (args : Namespace) (env : Environment) : Prop :=
  forall log_file,
    given (args_log_file args) = Some log_file ->
    env_log_handler env log_file = None.

(** The record [main] logs for an exception that reaches its handlers. *)
Definition reported (e : exn) : cli_record :=
  match e with
  | FileNotFoundError | JSONDecodeError | TypeError => Error_logged e
  | _ => Unhandled_error e
  end.


(** ** Runs of the command line *)

Module Shell.

Definition start : process nat := Process 0 [] [] [].

(** A terminal with the files of [Examples.disk]; no file can be opened
    under [/proc], and a file under [/full] takes no text. *)
Definition terminal : Environment :=
  {| env_read_file := Json.read Examples.disk;
     env_json_loads := Json.loads;
     env_isatty := true;
     env_stdin := [];
     env_open_output := fun output =>
       match Json.strip_prefix (py "/proc/") output with
       | Some _ => Some OSError
       | None => None
       end;
     env_write := fun output _ =>
       match Json.strip_prefix (py "/full/") output with
       | Some _ => Some (OSError, [])
       | None => None
       end;
     env_log_handler := fun _ => None |}.

(** Arguments without a log file. *)
Definition arguments (input_text patterns output : option str) : Namespace :=
  {| args_input_text := input_text; args_patterns := patterns;
     args_output := output; args_log_file := None |}.


End Shell.

(** * Properties *)

Unset Implicit Arguments.

(** ** Strings and templates *)

Lemma str_eqb_eq (a b : str) : str_eqb a b = true <-> a = b.
Proof.
  revert b. induction a as [|x a IH]; intros [|y b]; simpl;
    try (split; [discriminate|discriminate]); [tauto|].
  rewrite andb_true_iff, Ascii.eqb_eq, IH.
  split; [intros [-> ->]; reflexivity | intros H; inversion H; auto].
Qed.

Lemma str_eqb_refl (a : str) : str_eqb a a = true.
Proof. apply str_eqb_eq. reflexivity. Qed.

(** A replacement without a backslash is a literal: it parses, and expands
    to itself at every match. *)
Lemma parse_template_literal groups groupindex (v : str) :
  has_backslash v = false ->
  exists t, parse_template groups groupindex v = inr t /\
            forall s m, expand_template t s m = v.
Proof.
  induction v as [|c v IH]; intros H.
  - exists []. split; reflexivity.
  - change (has_backslash (c :: v))
      with (Ascii.eqb backslash c || has_backslash v) in H.
    apply orb_false_iff in H. destruct H as [Hc Hv].
    destruct (IH Hv) as (t & Ht & Hexp).
    exists (TLit [c] :: t). split.
    + cbn [parse_template]. rewrite Ascii.eqb_sym, Hc. rewrite Ht. reflexivity.
    + intros s m. unfold expand_template in *.
      cbn [map expand_item List.concat app]. rewrite Hexp. reflexivity.
Qed.

(** ** The scan of [re.sub] *)

Section ScanFacts.
Context {E : RegexEngine}.

Lemma search_from_spec r s k :
  forall pos adv,
    match search_from r s k pos adv with
    | None => forall p, pos <= p <= pos + k ->
                        match_at r s p (adv && (p =? pos)) = None
    | Some m =>
      exists b n g,
        m = MatchObj b (b + n) g /\ pos <= b <= pos + k /\
        (forall p, pos <= p < b -> match_at r s p (adv && (p =? pos)) = None) /\
        match_at r s b (adv && (b =? pos)) = Some (n, g)
    end.
Proof.
  induction k as [|k IH]; intros pos adv; simpl.
  - destruct (match_at r s pos adv) as [[n g]|] eqn:Hm.
    + exists pos, n, g. rewrite Nat.eqb_refl, andb_true_r.
      split; [reflexivity|]. split; [lia|].
      split; [intros p Hp; lia | exact Hm].
    + intros p Hp. assert (p = pos) by lia. subst.
      rewrite Nat.eqb_refl, andb_true_r. exact Hm.
  - destruct (match_at r s pos adv) as [[n g]|] eqn:Hm.
    + exists pos, n, g. rewrite Nat.eqb_refl, andb_true_r.
      split; [reflexivity|]. split; [lia|].
      split; [intros p Hp; lia | exact Hm].
    + specialize (IH (S pos) false).
      assert (Hflag : forall p, S pos <= p -> adv && (p =? pos) = false).
      { intros p Hp. destruct (Nat.eqb_spec p pos); [lia|]. apply andb_false_r. }
      assert (Hpos : adv && (pos =? pos) = adv).
      { rewrite Nat.eqb_refl. apply andb_true_r. }
      destruct (search_from r s k (S pos) false) as [m|].
      * destruct IH as (b & n & g & -> & Hb & Hbefore & Hat).
        exists b, n, g. split; [reflexivity|]. split; [lia|]. split.
        -- intros p Hp. destruct (Nat.eq_dec p pos) as [->|Hne].
           ++ rewrite Hpos. exact Hm.
           ++ rewrite Hflag by lia. apply (Hbefore p). lia.
        -- rewrite Hflag by lia. exact Hat.
      * intros p Hp. destruct (Nat.eq_dec p pos) as [->|Hne].
        -- rewrite Hpos. exact Hm.
        -- rewrite Hflag by lia. apply (IH p). lia.
Qed.

Lemma re_search_spec r s pos adv :
  match re_search r s pos adv with
  | None => forall p, pos <= p <= length s ->
                      match_at r s p (adv && (p =? pos)) = None
  | Some m =>
    exists b n g,
      m = MatchObj b (b + n) g /\ pos <= b <= length s /\
      (forall p, pos <= p < b -> match_at r s p (adv && (p =? pos)) = None) /\
      match_at r s b (adv && (b =? pos)) = Some (n, g)
  end.
Proof.
  unfold re_search. destruct (Nat.ltb_spec (length s) pos) as [Hlt|Hle].
  - intros p Hp. lia.
  - pose proof (search_from_spec r s (length s - pos) pos adv) as H.
    replace (pos + (length s - pos)) with (length s) in H by lia.
    exact H.
Qed.

Lemma end_is_start (b n : nat) : (b + n =? b) = (n =? 0).
Proof.
  destruct (Nat.eqb_spec (b + n) b), (Nat.eqb_spec n 0); try reflexivity; lia.
Qed.

(** What the loop collects is the leftmost non-overlapping matches. *)
Lemma scan_leftmost r s fuel :
  forall pos adv ms,
    scan fuel r s pos adv = Some ms -> leftmost r s pos adv ms.
Proof.
  induction fuel as [|fuel IH]; intros pos adv ms H; [discriminate|].
  simpl in H. pose proof (re_search_spec r s pos adv) as Hs.
  destruct (re_search r s pos adv) as [m|].
  - destruct Hs as (b & n & g & -> & Hb & Hbefore & Hat). simpl in H.
    destruct (scan fuel r s (b + n) (b + n =? b)) as [ms'|] eqn:Hscan;
      [|discriminate].
    inversion H; subst. rewrite end_is_start in Hscan.
    apply leftmost_next; auto.
  - inversion H; subst. apply leftmost_done. exact Hs.
Qed.

(** The loop ends within its fuel: each turn moves on in the text, or
    stays after an empty match and then has to move. *)
Lemma scan_terminates r s fuel :
  forall pos (adv : bool),
    2 * (S (length s) - pos) + (if adv then 0 else 1) < fuel ->
    exists ms, scan fuel r s pos adv = Some ms.
Proof.
  induction fuel as [|fuel IH]; intros pos adv Hfuel; [lia|].
  simpl. pose proof (re_search_spec r s pos adv) as Hs.
  destruct (re_search r s pos adv) as [m|]; [|eauto].
  destruct Hs as (b & n & g & -> & Hb & _ & Hat). simpl.
  destruct (IH (b + n) (b + n =? b)) as [ms Hms].
  - rewrite end_is_start. destruct (Nat.eqb_spec n 0) as [->|Hn].
    + destruct (Nat.eqb_spec b pos) as [->|Hne].
      * destruct adv.
        -- simpl in Hat. apply match_at_advance in Hat. lia.
        -- lia.
      * lia.
    + lia.
  - rewrite Hms. eauto.
Qed.

(** The fuel [finditer] gives the loop is enough. *)
Lemma finditer_scan r s : scan (scan_fuel s) r s 0 false = Some (finditer r s).
Proof.
  unfold finditer.
  destruct (scan_terminates r s (scan_fuel s) 0 false) as [ms Hms].
  - unfold scan_fuel. lia.
  - rewrite Hms. reflexivity.
Qed.

Lemma finditer_leftmost r s : leftmost r s 0 false (finditer r s).
Proof. eapply scan_leftmost. apply finditer_scan. Qed.

Lemma leftmost_ordered r s pos adv ms :
  leftmost r s pos adv ms -> ordered pos ms.
Proof.
  induction 1; simpl; [exact I|]. repeat split; try lia. assumption.
Qed.

Lemma finditer_no_match r s : no_match r s -> finditer r s = [].
Proof.
  intros Hno. pose proof (finditer_leftmost r s) as H.
  inversion H as [|pos adv b n g ms Hb _ Hat _]; [reflexivity|]. subst.
  simpl in Hat. rewrite (Hno b) in Hat by lia. discriminate.
Qed.

(** *** Joining the pieces *)

Lemma weave_interleave s (f : re_match -> str) ms :
  forall i, weave s i ms f = interleave (gaps s i ms) (map f ms).
Proof.
  induction ms as [|m ms IH]; intros i; simpl.
  - rewrite app_nil_r. reflexivity.
  - rewrite IH. reflexivity.
Qed.

Lemma skipn_slice (s : str) (i b : nat) :
  i <= b -> skipn i s = slice s i b ++ skipn b s.
Proof.
  intros H. unfold slice.
  rewrite <- (firstn_skipn (b - i) (skipn i s)) at 1.
  rewrite skipn_skipn. replace (b - i + i) with b by lia. reflexivity.
Qed.

(** Putting the matched text back between the gaps gives the text. *)
Lemma weave_matched s ms :
  forall i, ordered i ms -> weave s i ms (matched_text s) = skipn i s.
Proof.
  induction ms as [|m ms IH]; intros i H; simpl; [reflexivity|].
  simpl in H. destruct H as (Hi & Hm & Hrest).
  rewrite (IH _ Hrest). unfold matched_text.
  rewrite <- (skipn_slice s _ _ Hm). symmetry. apply skipn_slice. exact Hi.
Qed.

Lemma weave_ext s (f h : re_match -> str) ms :
  (forall m, f m = h m) -> forall i, weave s i ms f = weave s i ms h.
Proof.
  intros Hfh. induction ms as [|m ms IH]; intros i; simpl; [reflexivity|].
  rewrite Hfh, IH. reflexivity.
Qed.

(** [re.sub] when the pattern compiles and the replacement is a literal. *)
Lemma re_sub_literal pattern r (v text : str) :
  re_compile pattern = inr r ->
  has_backslash v = false ->
  re_sub pattern v text = inr (weave text 0 (finditer r text) (fun _ => v)).
Proof.
  intros Hc Hv. unfold re_sub. rewrite Hc.
  destruct (parse_template_literal (re_groups r) (re_groupindex r) v Hv)
    as (t & -> & Hexp).
  f_equal. apply weave_ext. intros m. apply Hexp.
Qed.

End ScanFacts.

(** ** The replacement of a category *)

Section ProgramFacts.
Context {E : RegexEngine}.
Variable G : Type.

Implicit Types (self : PIIEntityRedactor G) (w : world G) (text : str).


Lemma method_of_known self c m :
  method_of (faker self) c = Some m -> known_category c = true.
Proof.
  unfold method_of, known_category.
  destruct (str_eqb c (py "name")); [reflexivity|].
  destruct (str_eqb c (py "address")); [reflexivity|].
  destruct (str_eqb c (py "phone_number")); [reflexivity|discriminate].
Qed.

(** The generator answered: its value is the replacement. *)
Lemma get_replacement_value self c m w g' v :
  method_of (faker self) c = Some m ->
  m (rng w) = (g', inr v) ->
  _get_replacement self c w = (World g' (log w), inr v).
Proof.
  unfold method_of, _get_replacement, try_except, call. intros Hm Hv.
  destruct (str_eqb c (py "name"));
    [|destruct (str_eqb c (py "address"));
      [|destruct (str_eqb c (py "phone_number")); [|discriminate]]];
    inversion Hm; subst; rewrite Hv; reflexivity.
Qed.

(** The generator raised: the exception is logged and the placeholder is
    the replacement. *)
Lemma get_replacement_failure self c m w g' e :
  method_of (faker self) c = Some m ->
  m (rng w) = (g', inl e) ->
  _get_replacement self c w =
    (World g' (log w ++ [Fake_data_error c e]), inr REDACTED).
Proof.
  unfold method_of, _get_replacement, try_except, call. intros Hm Hv.
  destruct (str_eqb c (py "name"));
    [|destruct (str_eqb c (py "address"));
      [|destruct (str_eqb c (py "phone_number")); [|discriminate]]];
    inversion Hm; subst; rewrite Hv; reflexivity.
Qed.

(** No generator for the category: a warning, and the empty string. *)
Lemma get_replacement_unknown self c w :
  known_category c = false ->
  _get_replacement self c w =
    (World (rng w) (log w ++ [No_replacement_defined c]), inr []).
Proof.
  unfold known_category, _get_replacement, try_except. intros H.
  apply orb_false_iff in H. destruct H as [H Hp].
  apply orb_false_iff in H. destruct H as [Hn Ha].
  rewrite Hn, Ha, Hp. reflexivity.
Qed.

(** [_get_replacement] never raises. *)
Lemma get_replacement_returns self c w :
  exists w' repl, _get_replacement self c w = (w', inr repl).
Proof.
  destruct (method_of (faker self) c) as [m|] eqn:Hm.
  - destruct (m (rng w)) as [g' [e|v]] eqn:Hv.
    + erewrite get_replacement_failure by eassumption. eauto.
    + erewrite get_replacement_value by eassumption. eauto.
  - rewrite get_replacement_unknown; [eauto|].
    unfold method_of in Hm. unfold known_category.
    destruct (str_eqb c (py "name")); [discriminate|].
    destruct (str_eqb c (py "address")); [discriminate|].
    destruct (str_eqb c (py "phone_number")); [discriminate|reflexivity].
Qed.

(** ** The passes *)

Lemma pass_unfold self c p text w :
  pass self (c, p) text w =
    match _get_replacement self c w with
    | (w', inr repl) => (w', re_sub p repl text)
    | (w', inl e) => (w', inl e)
    end.
Proof.
  unfold pass, bind, lift.
  destruct (_get_replacement self c w) as [w' [e|repl]]; reflexivity.
Qed.

Lemma pass_with self c p text w w' repl :
  _get_replacement self c w = (w', inr repl) ->
  pass self (c, p) text w = (w', re_sub p repl text).
Proof. intros H. rewrite pass_unfold, H. reflexivity. Qed.

Lemma passes_cons self item rest text w :
  passes self (item :: rest) text w =
    match pass self item text w with
    | (w1, inr t1) => passes self rest t1 w1
    | (w1, inl e) => (w1, inl e)
    end.
Proof.
  simpl. unfold bind.
  destruct (pass self item text w) as [w1 [e|t1]]; reflexivity.
Qed.

Lemma passes_app self pre post :
  forall text w,
    passes self (pre ++ post) text w =
      match passes self pre text w with
      | (w1, inr t1) => passes self post t1 w1
      | (w1, inl e) => (w1, inl e)
      end.
Proof.
  induction pre as [|item pre IH]; intros text w; [reflexivity|].
  rewrite <- app_comm_cons, !passes_cons.
  destruct (pass self item text w) as [w1 [e|t1]]; [reflexivity|apply IH].
Qed.

Lemma passes_in_order self items :
  forall text w w' out,
    passes self items text w = (w', inr out) <->
    in_order self items text w w' out.
Proof.
  induction items as [|item rest IH]; intros text w w' out.
  - simpl. unfold ret. split.
    + intros H. inversion H; subst. constructor.
    + intros H. inversion H; subst. reflexivity.
  - rewrite passes_cons. split.
    + destruct (pass self item text w) as [w1 [e|t1]] eqn:Hp; [discriminate|].
      intros H. econstructor; [exact Hp|]. apply IH. exact H.
    + intros H. inversion H; subst.
      match goal with Hp : pass _ _ _ _ = _ |- _ => rewrite Hp end.
      apply IH. assumption.
Qed.

(** The handler of [redact_text] logs and raises again: the call returns
    exactly when the loop does. *)
Lemma redact_text_returns self text w w' out :
  redact_text self text w = (w', inr out) <->
  passes self (patterns self) text w = (w', inr out).
Proof.
  unfold redact_text, try_except.
  destruct (passes self (patterns self) text w) as [w1 [e|t1]].
  - split; [|discriminate]. destruct e; discriminate.
  - tauto.
Qed.

Lemma redact_text_raises self text w w1 e :
  passes self (patterns self) text w = (w1, inl e) ->
  redact_text self text w =
    (World (rng w1) (log w1 ++ [redaction_record e]), inl e).
Proof.
  intros H. unfold redact_text, try_except. rewrite H.
  destruct e; reflexivity.
Qed.

End ProgramFacts.

(** ** What [redact_text] guarantees *)

Section Guarantees.
Context {E : RegexEngine}.
Variable G : Type.

Implicit Types (self : PIIEntityRedactor G) (w : world G) (text : str).

(** C1, as amended: for a category with a generator of its own, the
    generator is invoked exactly once for the pass, before the search,
    whatever the text and the number of matches, whether or not the rule
    compiles and whether the generator returns or raises.  A value it
    returns is handed to [re.sub] once, for the whole pass: when the rule
    compiles and the value is a template, every match is replaced by the
    expansion of that template at the match, and when the value has no
    backslash, every match is replaced by the value itself. *)
Theorem pass_generates_once self c p m text w :
  method_of (faker self) c = Some m ->
  rng (fst (pass self (c, p) text w)) = fst (m (rng w)) /\
  (forall g' v,
     m (rng w) = (g', inr v) ->
     pass self (c, p) text w = (World g' (log w), re_sub p v text) /\
     (forall r t,
        re_compile p = inr r ->
        parse_template (re_groups r) (re_groupindex r) v = inr t ->
        pass self (c, p) text w =
          (World g' (log w),
           inr (weave text 0 (finditer r text) (expand_template t text)))) /\
     (forall r,
        re_compile p = inr r ->
        has_backslash v = false ->
        pass self (c, p) text w =
          (World g' (log w), inr (weave text 0 (finditer r text) (fun _ => v))))).
Proof.
  intros Hm. split.
  - rewrite pass_unfold. destruct (m (rng w)) as [g' [e|v]] eqn:Hv.
    + rewrite (get_replacement_failure G self c m w g' e Hm Hv). reflexivity.
    + rewrite (get_replacement_value G self c m w g' v Hm Hv). reflexivity.
  - intros g' v Hv.
    pose proof (pass_with G self c p text w _ _
                  (get_replacement_value G self c m w g' v Hm Hv)) as Hpass.
    split; [exact Hpass|]. split.
    + intros r t Hc Ht. rewrite Hpass. unfold re_sub. rewrite Hc, Ht. reflexivity.
    + intros r Hc Hlit. rewrite Hpass.
      rewrite (re_sub_literal p r v text Hc Hlit). reflexivity.
Qed.


End Guarantees.

#[local] Existing Instance Sre.engine.

Lemma pass_generates_once_run :
  pass (Examples.default_engine Fakers.counting) Examples.name_item
       Examples.two_names Examples.w0
  = (World 1 [], inr (py "Name0 met Name0")).
Proof.
  exact (proj2 (proj2 (proj2 (pass_generates_once nat
                                (Examples.default_engine Fakers.counting)
                                (py "name") (snd Examples.name_item)
                                (Fakers.numbered "Name") Examples.two_names
                                Examples.w0 eq_refl)
                             1 (py "Name0") eq_refl))
               Examples.name_rule eq_refl eq_refl).
Defined.

(** C1 as stated fails: the text has two matches of the name rule, the
    generator is invoked once and both are replaced with its one value; a
    value for each match would take two invocations and give two values. *)
Lemma two_matches_one_value :
  length (finditer Examples.name_rule Examples.two_names) = 2 /\
  pass (Examples.default_engine Fakers.counting) Examples.name_item
       Examples.two_names Examples.w0
  = (World 1 [], inr (py "Name0 met Name0")) /\
  pass_per_match (Examples.default_engine Fakers.counting) Examples.name_item
       Examples.two_names Examples.w0
  = (World 2 [], inr (py "Name0 met Name1")).
Proof. vm_compute. repeat split. Qed.



(** ** Loading and installing a pattern set *)

(** C3, as amended: [load_patterns] raises [TypeError] when the decoded
    value is not a mapping, [FileNotFoundError] when the file is missing,
    [JSONDecodeError] when the content is malformed, and returns any
    decoded mapping as it is, whatever the types of its values. *)
Theorem load_patterns_outcomes (G : Type) (read_file : str -> exn + str)
    (json_loads : str -> option json) (file_path : str) (w : world G) :
  (read_file file_path = inl FileNotFoundError ->
   load_patterns read_file json_loads file_path w =
     (World (rng w) (log w ++ [Pattern_file_not_found file_path]),
      inl FileNotFoundError)) /\
  (forall content,
     read_file file_path = inr content -> json_loads content = None ->
     load_patterns read_file json_loads file_path w =
       (World (rng w) (log w ++ [Invalid_JSON file_path]), inl JSONDecodeError)) /\
  (forall content v,
     read_file file_path = inr content -> json_loads content = Some v ->
     is_dict v = false ->
     load_patterns read_file json_loads file_path w =
       (World (rng w) (log w ++ [Logged_exception TypeError]), inl TypeError)) /\
  (forall content v,
     read_file file_path = inr content -> json_loads content = Some v ->
     is_dict v = true ->
     load_patterns read_file json_loads file_path w = (w, inr v)).
Proof.
  unfold load_patterns, try_except, bind, json_load, raise, ret.
  split; [|split; [|split]].
  - intros ->. reflexivity.
  - intros content -> ->. reflexivity.
  - intros content v -> -> ->. reflexivity.
  - intros content v -> -> ->. reflexivity.
Qed.

Lemma load_patterns_outcomes_run :
  load_patterns (Json.read Examples.disk) Json.loads (py "absent.json") Examples.w0
  = (World 0 [Pattern_file_not_found (py "absent.json")], inl FileNotFoundError) /\
  load_patterns (Json.read Examples.disk) Json.loads (py "cut.json") Examples.w0
  = (World 0 [Invalid_JSON (py "cut.json")], inl JSONDecodeError) /\
  load_patterns (Json.read Examples.disk) Json.loads (py "list.json") Examples.w0
  = (World 0 [Logged_exception TypeError], inl TypeError) /\
  load_patterns (Json.read Examples.disk) Json.loads (py "email.json") Examples.w0
  = (Examples.w0, inr (JObject [(py "email", JString (py "[a-z]+@[a-z]+"))])).
Proof.
  pose (outcomes := load_patterns_outcomes nat (Json.read Examples.disk) Json.loads).
  split; [|split; [|split]].
  - apply (proj1 (outcomes (py "absent.json") Examples.w0)). reflexivity.
  - apply (proj1 (proj2 (outcomes (py "cut.json") Examples.w0))
             (py "{" ++ Json.quoted "email" ++ py ": ")); reflexivity.
  - apply (proj1 (proj2 (proj2 (outcomes (py "list.json") Examples.w0)))
             (py "[1, 2]") (JArray [JNumber (py "1"); JNumber (py "2")]));
      reflexivity.
  - apply (proj2 (proj2 (proj2 (outcomes (py "email.json") Examples.w0)))
             (py "{" ++ Json.quoted "email" ++ py ": "
              ++ Json.quoted "[a-z]+@[a-z]+" ++ py "}"));
      reflexivity.
Defined.

(** C3 as stated fails: the file holds a mapping whose value is a number,
    not a string, and [load_patterns] returns it. *)
Lemma numeric_value_accepted :
  Json.loads Examples.numeric_config = Some (JObject [(py "ssn", JNumber (py "9"))]) /\
  is_str_mapping (JObject [(py "ssn", JNumber (py "9"))]) = false /\
  load_patterns (Json.read Examples.disk) Json.loads (py "numeric.json") Examples.w0
  = (Examples.w0, inr (JObject [(py "ssn", JNumber (py "9"))])).
Proof. vm_compute. repeat split. Qed.

Section Construction.
Variable G : Type.
Variable Faker_new : Faker G.

Lemma init_keeps_supplied_patterns (item : str * str) (p : pattern_set)
    (f : option (Faker G)) :
  patterns (__init__ Faker_new (Some (item :: p)) f) = item :: p.
Proof. reflexivity. Qed.

Lemma init_defaults_without_patterns (f : option (Faker G)) :
  patterns (__init__ Faker_new None f) = _default_patterns.
Proof. reflexivity. Qed.

End Construction.

(** C4 at the empty mapping: an engine constructed with [patterns={}] runs
    the three default categories, and redacts a name the supplied (empty)
    set has no rule for. *)
Theorem empty_pattern_set_gets_defaults :
  (forall (G : Type) (Faker_new : Faker G) (f : option (Faker G)),
     patterns (__init__ Faker_new (Some []) f) = _default_patterns) /\
  redact_text (Examples.custom_engine [] Fakers.counting) (py "John Doe") Examples.w0
  = (World 3 [], inr (py "Name0")).
Proof. split; [reflexivity | vm_compute; reflexivity]. Qed.

(** ** Order and failure of the passes *)

Section Passes.
Context {E : RegexEngine}.
Variable G : Type.

Implicit Types (self : PIIEntityRedactor G) (w : world G) (text : str).

(** C5: [redact_text] returns [out] exactly when the categories, taken in
    the order of the pattern set, each had one pass, the first on the
    input and every other one on the text its predecessor returned, and
    the last returned [out]. *)
Theorem redact_text_in_order self text w w' out :
  redact_text self text w = (w', inr out) <->
  in_order self (patterns self) text w w' out.
Proof.
  rewrite redact_text_returns. apply passes_in_order.
Qed.

(** C6, as amended: a rule that does not compile makes [redact_text]
    raise, never return a text; when the loop reaches the rule, the passes
    before it having returned, the exception the compiler raised
    ([re.error], or another one such as [OverflowError]) is logged and
    raised again unchanged. *)
Theorem invalid_rule_aborts self pre c p post e text w :
  patterns self = pre ++ (c, p) :: post ->
  re_compile p = inl e ->
  (exists w' e', redact_text self text w = (w', inl e')) /\
  (forall w1 t1,
     passes self pre text w = (w1, inr t1) ->
     redact_text self text w =
       (World (rng (fst (_get_replacement self c w1)))
              (log (fst (_get_replacement self c w1)) ++ [redaction_record e]),
        inl e)).
Proof.
  intros Hpat Hc.
  assert (Hreach : forall w1 t1,
    passes self pre text w = (w1, inr t1) ->
    passes self (patterns self) text w
    = (fst (_get_replacement self c w1), inl e)).
  { intros w1 t1 Hpre. rewrite Hpat, passes_app, Hpre, passes_cons.
    destruct (get_replacement_returns G self c w1) as (w2 & repl & Hrepl).
    rewrite (pass_with G self c p t1 w1 w2 repl Hrepl), Hrepl.
    unfold re_sub. rewrite Hc. reflexivity. }
  split.
  - destruct (passes self pre text w) as [w1 [e1|t1]] eqn:Hpre.
    + assert (Hall : passes self (patterns self) text w = (w1, inl e1)).
      { rewrite Hpat, passes_app, Hpre. reflexivity. }
      rewrite (redact_text_raises G self text w w1 e1 Hall). eauto.
    + rewrite (redact_text_raises G self text w _ e (Hreach w1 t1 eq_refl)). eauto.
  - intros w1 t1 Hpre.
    apply (redact_text_raises G self text w _ e (Hreach w1 t1 Hpre)).
Qed.

End Passes.

Lemma redact_text_in_order_run :
  in_order (Examples.default_engine Fakers.counting) _default_patterns
           (py "I live at 123 Main St") Examples.w0
           (World 3 []) (py "I live at 123 Name0").
Proof.
  exact (proj1 (redact_text_in_order nat (Examples.default_engine Fakers.counting)
                  (py "I live at 123 Main St") Examples.w0
                  (World 3 []) (py "I live at 123 Name0"))
               eq_refl).
Defined.

(** The address rule runs on what the name pass returned: [Main St] is
    two capitalised words, the name pass replaces it, and the address rule
    finds nothing left to match. *)
Example later_pass_reads_earlier_output :
  pass (Examples.default_engine Fakers.counting) Examples.name_item
       (py "I live at 123 Main St") Examples.w0
  = (World 1 [], inr (py "I live at 123 Name0")) /\
  re_sub (py "\d+ [A-Za-z]+ St(?:reet)?") (py "Addr1") (py "I live at 123 Main St")
  = inr (py "I live at Addr1") /\
  re_sub (py "\d+ [A-Za-z]+ St(?:reet)?") (py "Addr1") (py "I live at 123 Name0")
  = inr (py "I live at 123 Name0").
Proof. vm_compute. repeat split. Qed.

(** The engine on assertions and lazy repeats, and a template whose
    group references are read as numbers. *)
Example assertions_and_lazy_repeats :
  re_sub (py "\b\w+?\b") (py "<\g<0>>") (py "John met Al")
  = inr (py "<John> <met> <Al>") /\
  re_sub (py "^\w+|\w+$") (py "#") (py "John met Al") = inr (py "# met #") /\
  re_sub (py "(\d+?)(\d*)$") (py "\2-\1") (py "tel 5551234")
  = inr (py "tel 551234-5") /\
  re_sub (py "\Ba\B") (py "_") (py "banana a") = inr (py "b_n_na a") /\
  re_sub (py "a*?") (py "-") (py "baa") = inr (py "-b-----") /\
  re_sub (py "(\w+) (\w+)") (py "\g< 2 > \g<+1>") (py "John Doe")
  = inr (py "Doe John") /\
  re_compile (py "^*") = inl re_error /\
  re_compile (py "a*?*") = inl re_error.
Proof. vm_compute. repeat split. Qed.

Lemma invalid_rule_aborts_run :
  redact_text
    (Examples.custom_engine [Examples.name_item; Examples.broken_item] Fakers.counting)
    Examples.two_names Examples.w0
  = (World 1 [No_replacement_defined (py "zip"); Regex_error re_error], inl re_error).
Proof.
  exact (proj2
    (invalid_rule_aborts nat
       (Examples.custom_engine [Examples.name_item; Examples.broken_item] Fakers.counting)
       [Examples.name_item] (py "zip") (snd Examples.broken_item) [] re_error
       Examples.two_names Examples.w0 eq_refl eq_refl)
    (World 1 []) (py "Name0 met Name0") eq_refl).
Defined.

(** C6 as stated fails: the rule has a parenthesis left open, and what
    the compiler raises for it is [OverflowError], for the repetition
    count it meets first; [redact_text] logs it as an unexpected error and
    raises it, not [re.error]. *)
Lemma invalid_rule_other_exception :
  re_compile (snd Examples.overflow_item) = inl OverflowError /\
  redact_text
    (Examples.custom_engine [Examples.name_item; Examples.overflow_item] Fakers.counting)
    Examples.two_names Examples.w0
  = (World 1 [No_replacement_defined (py "zip");
              Unexpected_redaction_error OverflowError], inl OverflowError).
Proof. vm_compute. split; reflexivity. Qed.

(** ** The text a pass returns *)

Section Frame.
Context {E : RegexEngine}.
Variable G : Type.

Implicit Types (self : PIIEntityRedactor G) (w : world G) (text : str).

(** A pass returns when its rule compiles and the generated value is a
    template for it. *)
Lemma pass_returns self c p r text w :
  re_compile p = inr r ->
  well_formed_replacements self c r ->
  exists w' t,
    pass self (c, p) text w
    = (w', inr (weave text 0 (finditer r text) (expand_template t text))).
Proof.
  intros Hc Hwf.
  destruct (get_replacement_returns G self c w) as (w' & repl & Hrepl).
  destruct (Hwf w w' repl Hrepl) as (t & Ht).
  exists w', t. rewrite (pass_with G self c p text w w' repl Hrepl).
  unfold re_sub. rewrite Hc, Ht. reflexivity.
Qed.


Lemma passes_no_match self text items :
  Forall (fun item =>
            exists r, re_compile (snd item) = inr r /\ no_match r text /\
                      well_formed_replacements self (fst item) r) items ->
  forall w, exists w', passes self items text w = (w', inr text).
Proof.
  induction 1 as [|[c p] rest (r & Hc & Hno & Hwf) _ IH]; intros w.
  - exists w. reflexivity.
  - simpl in Hc, Hno, Hwf. rewrite passes_cons.
    destruct (pass_returns self c p r text w Hc Hwf) as (w1 & t & ->).
    rewrite (finditer_no_match r text Hno). simpl. apply IH.
Qed.

(** C8, as amended: when every rule compiles, no substring of the text
    matches any rule, and every generated value is a template its rule
    accepts, [redact_text] returns the text unchanged. *)
Theorem no_match_identity self text w :
  Forall (fun item =>
            exists r, re_compile (snd item) = inr r /\ no_match r text /\
                      well_formed_replacements self (fst item) r)
         (patterns self) ->
  exists w', redact_text self text w = (w', inr text).
Proof.
  intros H. destruct (passes_no_match self text (patterns self) H w) as (w' & Hp).
  exists w'. apply redact_text_returns. exact Hp.
Qed.

(** C9: a pass returns a text exactly when it has a replacement, the rule
    compiles and the replacement is a template; the text returned is then
    the text received with each of the leftmost non-overlapping matches of
    the rule replaced by the expansion of that template: both texts are
    the same gaps, in the same order, around the matches in the one and
    around their replacements in the other. *)
Theorem pass_frame self c p text w :
  (forall w' out,
     pass self (c, p) text w = (w', inr out) <->
     exists r repl t,
       _get_replacement self c w = (w', inr repl) /\
       re_compile p = inr r /\
       parse_template (re_groups r) (re_groupindex r) repl = inr t /\
       out = interleave (gaps text 0 (finditer r text))
                        (map (expand_template t text) (finditer r text))) /\
  (forall r,
     re_compile p = inr r ->
     leftmost r text 0 false (finditer r text) /\
     text = interleave (gaps text 0 (finditer r text))
                       (map (matched_text text) (finditer r text))).
Proof.
  split.
  - intros w' out. rewrite pass_unfold. split.
    + destruct (_get_replacement self c w) as [w1 [e|repl]]; [discriminate|].
      unfold re_sub. destruct (re_compile p) as [e0|r]; [discriminate|].
      destruct (parse_template (re_groups r) (re_groupindex r) repl) as [e|t] eqn:Ht;
        [discriminate|].
      intros H. inversion H; subst. exists r, repl, t.
      split; [reflexivity|]. split; [reflexivity|]. split; [exact Ht|].
      apply weave_interleave.
    + intros (r & repl & t & Hrepl & Hc & Ht & ->).
      rewrite Hrepl. unfold re_sub. rewrite Hc, Ht, weave_interleave. reflexivity.
  - intros r _. pose proof (finditer_leftmost r text) as Hl.
    split; [exact Hl|].
    rewrite <- weave_interleave.
    rewrite (weave_matched text _ 0 (leftmost_ordered _ _ _ _ _ Hl)).
    reflexivity.
Qed.

End Frame.


(** [no_match] on a text of five characters: the six positions, one by
    one. *)
Ltac no_match_by_cases :=
  let p := fresh "p" in
  let Hp := fresh "Hp" in
  intros p Hp;
  do 6 (destruct p as [|p]; [vm_compute; reflexivity|]);
  exfalso; vm_compute in Hp; lia.

Ltac rule_without_match r :=
  exists r; split; [vm_compute; reflexivity|]; split; [no_match_by_cases|].

Lemma no_match_identity_run :
  exists w',
    redact_text (Examples.default_engine (Fakers.naming (py "Jane Roe")))
                (py "hello") Examples.w0
    = (w', inr (py "hello")).
Proof.
  apply (no_match_identity nat).
  repeat apply Forall_cons; try apply Forall_nil.
  - rule_without_match Examples.name_rule.
    intros w w1 repl H. vm_compute in H. inversion H. eexists. vm_compute. reflexivity.
  - rule_without_match (Examples.compiled_or_empty (py "\d+ [A-Za-z]+ St(?:reet)?")).
    intros w w1 repl H. vm_compute in H. inversion H. eexists. vm_compute. reflexivity.
  - rule_without_match
      (Examples.compiled_or_empty (py "\(?\d{3}\)?[-.\s]?\d{3}[-.\s]?\d{4}")).
    intros w w1 repl H. vm_compute in H. inversion H. eexists. vm_compute. reflexivity.
Defined.

(** C8 as stated fails: every rule compiles and nothing in the text matches
    any of them, yet the call raises, the value generated for [name] (a
    lone backslash) being no template. *)
Lemma no_match_yet_error :
  Forall (fun item => exists r, re_compile (snd item) = inr r /\
                                no_match r (py "hello"))
         (patterns (Examples.default_engine (Fakers.naming [backslash]))) /\
  redact_text (Examples.default_engine (Fakers.naming [backslash]))
              (py "hello") Examples.w0
  = (World 1 [Regex_error re_error], inl re_error).
Proof.
  split; [|vm_compute; reflexivity].
  repeat apply Forall_cons; try apply Forall_nil.
  - exists Examples.name_rule. split; [vm_compute; reflexivity|no_match_by_cases].
  - exists (Examples.compiled_or_empty (py "\d+ [A-Za-z]+ St(?:reet)?")).
    split; [vm_compute; reflexivity|no_match_by_cases].
  - exists (Examples.compiled_or_empty (py "\(?\d{3}\)?[-.\s]?\d{3}[-.\s]?\d{4}")).
    split; [vm_compute; reflexivity|no_match_by_cases].
Qed.

Lemma pass_frame_run :
  pass (Examples.default_engine Fakers.counting) Examples.name_item
       Examples.two_names Examples.w0
  = (World 1 [], inr (py "Name0 met Name0")) /\
  Examples.two_names
  = interleave (gaps Examples.two_names 0 (finditer Examples.name_rule Examples.two_names))
               (map (matched_text Examples.two_names)
                    (finditer Examples.name_rule Examples.two_names)).
Proof.
  split.
  - apply (proj2 (proj1 (pass_frame nat (Examples.default_engine Fakers.counting)
                           (py "name") (snd Examples.name_item) Examples.two_names
                           Examples.w0)
                        (World 1 []) (py "Name0 met Name0"))).
    exists Examples.name_rule, (py "Name0"),
           (map (fun ch => TLit [ch]) (py "Name0")).
    repeat split; reflexivity.
  - exact (proj2 (proj2 (pass_frame nat (Examples.default_engine Fakers.counting)
                           (py "name") (snd Examples.name_item) Examples.two_names
                           Examples.w0)
                        Examples.name_rule eq_refl)).
Defined.

(** C10: the generated value goes through the template parser of
    [re.sub].  With [\2, \1] for value the text inserted is built from the
    groups of the match, with a backslash and [n] it is a line feed, and
    with a lone backslash the call raises; in no case is the value found
    in the output as it was generated. *)
Theorem generated_value_is_a_template :
  redact_text (Examples.default_engine (Fakers.naming (py "\2, \1")))
              (py "call John Doe") Examples.w0
  = (World 3 [], inr (py "call Doe, John")) /\
  redact_text (Examples.default_engine (Fakers.naming (py "\n")))
              (py "call John Doe") Examples.w0
  = (World 3 [], inr (py "call " ++ [ascii_of_nat 10])) /\
  redact_text (Examples.default_engine (Fakers.naming [backslash]))
              (py "call John Doe") Examples.w0
  = (World 1 [Regex_error re_error], inl re_error) /\
  has_backslash (py "\2, \1") = true /\ has_backslash (py "\n") = true.
Proof. vm_compute. repeat split. Qed.


(** * Further properties *)

(** ** What a call does besides returning a text *)

Section Effects.
Context {E : RegexEngine}.
Variable G : Type.

Implicit Types (self : PIIEntityRedactor G) (w : world G) (text : str).

Lemma re_sub_outcome_ignores_text (p repl t1 t2 : str) :
  same_outcome (re_sub p repl t1) (re_sub p repl t2).
Proof.
  unfold re_sub. destruct (re_compile p) as [e0|r]; [reflexivity|].
  destruct (parse_template (re_groups r) (re_groupindex r) repl); simpl; auto.
Qed.

Lemma passes_ignore_text self items :
  forall t1 t2 w,
    fst (passes self items t1 w) = fst (passes self items t2 w) /\
    same_outcome (snd (passes self items t1 w)) (snd (passes self items t2 w)).
Proof.
  induction items as [|[c p] rest IH]; intros t1 t2 w.
  - simpl. auto.
  - rewrite !passes_cons, !pass_unfold.
    destruct (_get_replacement self c w) as [w1 [e|repl]]; [simpl; auto|].
    pose proof (re_sub_outcome_ignores_text p repl t1 t2) as Hsub.
    destruct (re_sub p repl t1) as [e1|o1], (re_sub p repl t2) as [e2|o2];
      simpl in Hsub; try contradiction.
    + subst. simpl. auto.
    + apply IH.
Qed.

(** X1: whether a call of [redact_text] returns or raises, the exception
    it raises, the state it leaves the generator in and what it logs are
    the same for every text. *)
Theorem redact_text_effects_ignore_text self t1 t2 w :
  fst (redact_text self t1 w) = fst (redact_text self t2 w) /\
  same_outcome (snd (redact_text self t1 w)) (snd (redact_text self t2 w)).
Proof.
  destruct (passes_ignore_text self (patterns self) t1 t2 w) as [Hw Ho].
  unfold redact_text, try_except.
  destruct (passes self (patterns self) t1 w) as [w1 [e1|o1]],
           (passes self (patterns self) t2 w) as [w2 [e2|o2]];
    simpl in *; try contradiction; subst; auto.
  destruct e2; simpl; auto.
Qed.

Lemma passes_effects self items :
  forall text w w' out,
    passes self items text w = (w', inr out) -> w' = effects_of self items w.
Proof.
  induction items as [|[c p] rest IH]; intros text w w' out H.
  - simpl in H. inversion H. reflexivity.
  - rewrite passes_cons, pass_unfold in H. simpl.
    destruct (_get_replacement self c w) as [w1 [e|repl]]; [discriminate|].
    destruct (re_sub p repl text) as [e|t1]; [discriminate|].
    simpl. eapply IH. exact H.
Qed.

(** X2: a call that returns has called [_get_replacement] exactly once
    for each category of the pattern set, in order, whatever the number of
    matches, and has changed the generator and the log in no other way. *)
Theorem redact_text_effects self text w w' out :
  redact_text self text w = (w', inr out) ->
  w' = effects_of self (patterns self) w.
Proof.
  intros H. apply redact_text_returns in H.
  eapply passes_effects. exact H.
Qed.

Lemma method_of_none self c :
  method_of (faker self) c = None -> known_category c = false.
Proof.
  unfold method_of, known_category.
  destruct (str_eqb c (py "name")); [discriminate|].
  destruct (str_eqb c (py "address")); [discriminate|].
  destruct (str_eqb c (py "phone_number")); [discriminate|reflexivity].
Qed.

Lemma get_replacement_log_frame self c g l :
  _get_replacement self c (World g l) =
    (World (rng (fst (_get_replacement self c (World g []))))
           (l ++ log (fst (_get_replacement self c (World g [])))),
     snd (_get_replacement self c (World g []))).
Proof.
  destruct (method_of (faker self) c) as [m|] eqn:Hm.
  - destruct (m g) as [g' [e|v]] eqn:Hv.
    + rewrite (get_replacement_failure G self c m (World g l) g' e Hm Hv),
              (get_replacement_failure G self c m (World g []) g' e Hm Hv).
      reflexivity.
    + rewrite (get_replacement_value G self c m (World g l) g' v Hm Hv),
              (get_replacement_value G self c m (World g []) g' v Hm Hv).
      simpl. rewrite app_nil_r. reflexivity.
  - apply method_of_none in Hm.
    rewrite !(get_replacement_unknown G self c _ Hm). reflexivity.
Qed.

Lemma passes_log_frame self items :
  forall text g l,
    passes self items text (World g l) =
      (World (rng (fst (passes self items text (World g []))))
             (l ++ log (fst (passes self items text (World g [])))),
       snd (passes self items text (World g []))).
Proof.
  induction items as [|[c p] rest IH]; intros text g l.
  - simpl. rewrite app_nil_r. reflexivity.
  - rewrite !passes_cons, !pass_unfold.
    rewrite (get_replacement_log_frame self c g l).
    destruct (_get_replacement self c (World g [])) as [[g1 l1] [e|repl]]; simpl;
      [reflexivity|].
    destruct (re_sub p repl text) as [e|t1]; simpl; [reflexivity|].
    rewrite (IH t1 g1 (l ++ l1)), (IH t1 g1 l1). simpl.
    rewrite app_assoc. reflexivity.
Qed.

(** X3: [redact_text] only appends to the log.  Run after any records, it
    returns or raises the same, leaves the generator the same, and logs
    the same records, after those that were there. *)
Theorem redact_text_appends_to_log self text g l :
  redact_text self text (World g l) =
    (World (rng (fst (redact_text self text (World g []))))
           (l ++ log (fst (redact_text self text (World g [])))),
     snd (redact_text self text (World g []))).
Proof.
  unfold redact_text, try_except.
  rewrite (passes_log_frame self (patterns self) text g l).
  destruct (passes self (patterns self) text (World g [])) as [[g1 l1] [e|out]];
    simpl; [|reflexivity].
  destruct e; simpl; rewrite app_assoc; reflexivity.
Qed.

End Effects.

(** ** The exceptions a call lets out *)

Lemma cons_item_error i r e : cons_item i r = inl e -> r = inl e.
Proof. destruct r; simpl; congruence. Qed.

Lemma addgroup_error groups index r e :
  addgroup groups index r = inl e -> e = re_error \/ r = inl e.
Proof.
  unfold addgroup. destruct (groups <? index).
  - intros H. inversion H. auto.
  - intros H. right. eapply cons_item_error. exact H.
Qed.

Lemma named_group_error groups gi name e :
  named_group groups gi name = inl e -> e = re_error \/ e = IndexError.
Proof.
  unfold named_group. destruct name; [intros H; inversion H; auto|].
  destruct (is_identifier (a :: name)).
  - destruct (lookup (a :: name) gi); [discriminate|]. intros H; inversion H; auto.
  - destruct (int (a :: name)) as [[negative index]|].
    + destruct (negative && (0 <? index)); [|discriminate].
      intros H; inversion H; auto.
    + intros H; inversion H; auto.
Qed.

Ltac template_step IH :=
  match goal with
  | H : inl _ = inl _ |- _ => inversion H; subst; clear H; auto
  | H : inr _ = inl _ |- _ => discriminate H
  | H : cons_item _ _ = inl _ |- _ => apply cons_item_error in H
  | H : addgroup _ _ _ = inl _ |- _ =>
    apply addgroup_error in H; destruct H as [H|H]; [subst; auto|]
  | H : parse_template _ _ ?l = inl _ |- _ =>
    solve [eapply IH; [|exact H]; simpl in *; lia]
  | H : context [if ?b then _ else _] |- _ => destruct b
  | H : context [match ?l with [] => _ | _ :: _ => _ end] |- _ =>
    is_var l; destruct l; cbv beta iota in H
  | H : context [match ESCAPES ?c with _ => _ end] |- _ => destruct (ESCAPES c)
  end.

Lemma parse_template_errors groups gi :
  forall n v e,
    length v <= n ->
    parse_template groups gi v = inl e -> e = re_error \/ e = IndexError.
Proof.
  induction n as [|n IH]; intros v e Hn H.
  - destruct v; [discriminate|simpl in Hn; lia].
  - destruct v as [|this rest]; [discriminate|].
    cbn [parse_template] in H. simpl in Hn.
    destruct (Ascii.eqb this backslash).
    2:{ apply cons_item_error in H. eapply IH; [|exact H]. lia. }
    destruct rest as [|c rest1]; [inversion H; auto|]. simpl in Hn.
    destruct (Ascii.eqb c "g").
    { destruct rest1 as [|lt rest2]; [inversion H; auto|].
      destruct (Ascii.eqb lt "<"); [|inversion H; auto].
      simpl in Hn.
      match type of H with
      | ?F rest2 [] = inl e =>
        assert (Hall : forall l name,
                  length l <= n -> F l name = inl e ->
                  e = re_error \/ e = IndexError)
      end.
      { clear H. induction l as [|x l' IHl]; intros name Hlen H;
          cbv beta iota fix in H; [inversion H; auto|].
        destruct (Ascii.eqb x ">").
        - destruct (str_eqb l' [backslash]); [inversion H; auto|].
          destruct (named_group groups gi name) as [e'|index] eqn:Hng.
          + inversion H; subst. eapply named_group_error. exact Hng.
          + apply addgroup_error in H. destruct H as [H|H]; [auto|].
            eapply IH; [|exact H]. simpl in Hlen. lia.
        - eapply IHl; [simpl in Hlen; lia|exact H]. }
      eapply Hall; [|exact H]. lia. }
    repeat template_step IH.
Qed.

Section Exceptions.
Context {E : RegexEngine}.
Variable G : Type.

Implicit Types (self : PIIEntityRedactor G) (w : world G) (text : str).

Lemma re_sub_errors (p repl text : str) (e : exn) :
  re_sub p repl text = inl e ->
  e = re_error \/ e = IndexError \/ re_compile p = inl e.
Proof.
  unfold re_sub. destruct (re_compile p) as [e0|r];
    [intros H; inversion H; auto|].
  destruct (parse_template (re_groups r) (re_groupindex r) repl) as [e'|t] eqn:Ht;
    [|discriminate].
  intros H. inversion H; subst.
  destruct (parse_template_errors _ _ (length repl) repl e (le_n _) Ht); auto.
Qed.

Lemma passes_errors self items :
  forall text w w' e,
    passes self items text w = (w', inl e) ->
    e = re_error \/ e = IndexError \/
    exists item, In item items /\ re_compile (snd item) = inl e.
Proof.
  induction items as [|[c p] rest IH]; intros text w w' e H.
  - discriminate.
  - rewrite passes_cons in H.
    destruct (get_replacement_returns G self c w) as (w1 & repl & Hrepl).
    rewrite (pass_with G self c p text w w1 repl Hrepl) in H.
    destruct (re_sub p repl text) as [e1|t1] eqn:Hsub.
    + inversion H; subst.
      destruct (re_sub_errors p repl text e Hsub) as [He | [He | He]]; auto.
      right. right. exists (c, p). split; [left; reflexivity|exact He].
    + destruct (IH t1 w1 w' e H) as [He | [He | (item & Hin & He)]]; auto.
      right. right. exists item. split; [right; exact Hin|exact He].
Qed.

(** X4: an exception [redact_text] lets out is one [re.sub] raised: the
    exception the compiler raised for a rule of the pattern set, or
    [re.error] or [IndexError] from a generated value that is no
    template.  Whatever the generator raises stays inside
    [_get_replacement]. *)
Theorem redact_text_raises_only self text w w' e :
  redact_text self text w = (w', inl e) ->
  e = re_error \/ e = IndexError \/
  exists item, In item (patterns self) /\ re_compile (snd item) = inl e.
Proof.
  unfold redact_text, try_except.
  destruct (passes self (patterns self) text w) as [w1 [e1|out]] eqn:Hp;
    [|discriminate].
  apply passes_errors in Hp. intros H.
  assert (e = e1) by (destruct e1; simpl in H; inversion H; reflexivity).
  subst. exact Hp.
Qed.

Lemma get_replacement_same_faker (s1 s2 : PIIEntityRedactor G) c w :
  faker s1 = faker s2 -> _get_replacement s1 c w = _get_replacement s2 c w.
Proof. unfold _get_replacement. intros ->. reflexivity. Qed.

Lemma passes_same_faker (s1 s2 : PIIEntityRedactor G) items :
  faker s1 = faker s2 ->
  forall text w, passes s1 items text w = passes s2 items text w.
Proof.
  intros Hf. induction items as [|[c p] rest IH]; intros text w; [reflexivity|].
  rewrite !passes_cons, !pass_unfold, (get_replacement_same_faker s1 s2 c w Hf).
  destruct (_get_replacement s2 c w) as [w1 [e|repl]]; [reflexivity|].
  destruct (re_sub p repl text); [reflexivity|apply IH].
Qed.

(** X5: an engine whose pattern set is those of two engines one after
    the other, with the same generator, returns what the second engine
    returns on the text the first returned, the second starting where the
    first left the generator and the log. *)
Theorem redact_text_concat (selfA selfB selfAB : PIIEntityRedactor G)
    text w w2 out :
  faker selfA = faker selfAB ->
  faker selfB = faker selfAB ->
  patterns selfAB = patterns selfA ++ patterns selfB ->
  (redact_text selfAB text w = (w2, inr out) <->
   exists w1 t1,
     redact_text selfA text w = (w1, inr t1) /\
     redact_text selfB t1 w1 = (w2, inr out)).
Proof.
  intros HA HB Hp. rewrite redact_text_returns, Hp, passes_app.
  rewrite <- (passes_same_faker selfA selfAB (patterns selfA) HA).
  split.
  - destruct (passes selfA (patterns selfA) text w) as [w1 [e|t1]] eqn:H1;
      [discriminate|].
    intros H2. exists w1, t1. split.
    + apply redact_text_returns. exact H1.
    + apply redact_text_returns.
      rewrite (passes_same_faker selfB selfAB (patterns selfB) HB). exact H2.
  - intros (w1 & t1 & H1 & H2).
    apply redact_text_returns in H1. apply redact_text_returns in H2.
    rewrite H1. rewrite <- (passes_same_faker selfB selfAB (patterns selfB) HB).
    exact H2.
Qed.

(** X16: [_get_replacement] never raises.  It returns the value of the
    one generator method it called, or the placeholder when that method
    raised (the exception being logged), or the empty string, without
    calling the generator, for a category that has no method. *)
Theorem get_replacement_outcomes self c w :
  exists w' v,
    _get_replacement self c w = (w', inr v) /\
    ((exists m g', method_of (faker self) c = Some m /\
                   m (rng w) = (g', inr v) /\ w' = World g' (log w)) \/
     (exists m g' e, method_of (faker self) c = Some m /\
                     m (rng w) = (g', inl e) /\ v = REDACTED /\
                     w' = World g' (log w ++ [Fake_data_error c e])) \/
     (method_of (faker self) c = None /\ v = [] /\
      w' = World (rng w) (log w ++ [No_replacement_defined c]))).
Proof.
  destruct (method_of (faker self) c) as [m|] eqn:Hm.
  - destruct (m (rng w)) as [g' [e|v]] eqn:Hv.
    + exists (World g' (log w ++ [Fake_data_error c e])), REDACTED. split.
      * apply (get_replacement_failure G self c m w g' e Hm Hv).
      * right. left. exists m, g', e. auto.
    + exists (World g' (log w)), v. split.
      * apply (get_replacement_value G self c m w g' v Hm Hv).
      * left. exists m, g'. auto.
  - exists (World (rng w) (log w ++ [No_replacement_defined c])), []. split.
    + apply get_replacement_unknown. apply (method_of_none G self c Hm).
    + right. right. auto.
Qed.

End Exceptions.

(** ** [load_patterns], from its result *)

(** X6: what [load_patterns] returns is a mapping, the one the decoder
    read from the content of the file; nothing is logged and the world is
    left as it was. *)
Theorem load_patterns_returns_mapping (G : Type) (read_file : str -> exn + str)
    (json_loads : str -> option json) (file_path : str) (w w' : world G) (v : json) :
  load_patterns read_file json_loads file_path w = (w', inr v) ->
  w' = w /\ is_dict v = true /\
  exists content, read_file file_path = inr content /\ json_loads content = Some v.
Proof.
  unfold load_patterns, try_except, bind, json_load, raise, ret.
  destruct (read_file file_path) as [e|content]; [destruct e; discriminate|].
  destruct (json_loads content) as [v'|] eqn:Hv; [|discriminate].
  destruct (is_dict v') eqn:Hd; simpl; [|discriminate].
  intros H. inversion H; subst.
  split; [reflexivity|]. split; [exact Hd|]. exists content. auto.
Qed.

(** X7: when [load_patterns] raises, the exception is that of the step
    that failed (reading the file, decoding it, or the check for a
    mapping), raised again unchanged after exactly one record was
    logged. *)
Theorem load_patterns_failure (G : Type) (read_file : str -> exn + str)
    (json_loads : str -> option json) (file_path : str) (w w' : world G) (e : exn) :
  load_patterns read_file json_loads file_path w = (w', inl e) ->
  rng w' = rng w /\
  (exists r, log w' = log w ++ [r]) /\
  (read_file file_path = inl e \/
   exists content,
     read_file file_path = inr content /\
     ((json_loads content = None /\ e = JSONDecodeError) \/
      (exists v, json_loads content = Some v /\ is_dict v = false /\ e = TypeError))).
Proof.
  unfold load_patterns, try_except, bind, json_load, raise, ret.
  destruct (read_file file_path) as [e0|content].
  - destruct e0; simpl; intros H; inversion H; subst; simpl; eauto.
  - destruct (json_loads content) as [v|] eqn:Hv.
    + destruct (is_dict v) eqn:Hd; simpl; [discriminate|].
      intros H. inversion H; subst. simpl.
      split; [reflexivity|]. split; [eauto|]. right. exists content.
      split; [reflexivity|]. right. eauto.
    + simpl. intros H. inversion H; subst. simpl.
      split; [reflexivity|]. split; [eauto|]. right. exists content. auto.
Qed.

(** ** Engines holding a decoded mapping *)

Section LoadedFacts.
Context {E : RegexEngine}.
Variable G : Type.

Implicit Types (L : LoadedRedactor G) (S : PIIEntityRedactor G) (w : world G).

Lemma pass_loaded_unfold L c v text w :
  pass_loaded L (c, v) text w =
    match _get_replacement (generator_of L) c w with
    | (w', inr repl) => (w', re_sub_loaded v repl text)
    | (w', inl e) => (w', inl e)
    end.
Proof.
  unfold pass_loaded, bind, lift.
  destruct (_get_replacement (generator_of L) c w) as [w' [e|repl]]; reflexivity.
Qed.

Lemma passes_loaded_cons L item rest text w :
  passes_loaded L (item :: rest) text w =
    match pass_loaded L item text w with
    | (w1, inr t1) => passes_loaded L rest t1 w1
    | (w1, inl e) => (w1, inl e)
    end.
Proof.
  simpl. unfold bind.
  destruct (pass_loaded L item text w) as [w1 [e|t1]]; reflexivity.
Qed.

Lemma passes_loaded_app L pre post :
  forall text w,
    passes_loaded L (pre ++ post) text w =
      match passes_loaded L pre text w with
      | (w1, inr t1) => passes_loaded L post t1 w1
      | (w1, inl e) => (w1, inl e)
      end.
Proof.
  induction pre as [|item pre IH]; intros text w; [reflexivity|].
  rewrite <- app_comm_cons, !passes_loaded_cons.
  destruct (pass_loaded L item text w) as [w1 [e|t1]]; [reflexivity|apply IH].
Qed.



(** X8: a value of the decoded mapping that is not a string makes
    [redact_text] raise [TypeError] when the loop reaches its entry, the
    replacement of the entry having been computed first; the text plays
    no part. *)
Theorem non_string_rule_raises L pre c v post text w w1 t1 :
  held_patterns L = JObject (pre ++ (c, v) :: post) ->
  is_string v = false ->
  passes_loaded L pre text w = (w1, inr t1) ->
  exists w2,
    fst (_get_replacement (generator_of L) c w1) = w2 /\
    redact_text_loaded L text w =
      (World (rng w2) (log w2 ++ [Unexpected_redaction_error TypeError]),
       inl TypeError).
Proof.
  intros Hp Hv Hpre. eexists. split; [reflexivity|].
  unfold redact_text_loaded, try_except. rewrite Hp.
  unfold items_of, bind at 1, lift.
  rewrite passes_loaded_app, Hpre, passes_loaded_cons, pass_loaded_unfold.
  destruct (get_replacement_returns G (generator_of L) c w1) as (w2 & repl & Hr).
  rewrite Hr. simpl.
  destruct v; try discriminate; reflexivity.
Qed.

End LoadedFacts.

(** ** The command line *)

Section MainFacts.
Context {E : RegexEngine}.
Variable G : Type.
Variable Faker_new : Faker G.

Implicit Types (args : Namespace) (env : Environment) (p : process G).

Lemma given_given (a : option str) : given (given a) = given a.
Proof. destruct a as [[|c s]|]; reflexivity. Qed.

Lemma in_world_run {A} (c : M G A) p w r :
  c (World (p_rng p) []) = (w, r) ->
  in_world c p =
    (Process (rng w) (p_log p ++ map Core (log w)) (p_stdout p) (p_files p),
     match r with
     | inl e => inl (Exception e)
     | inr x => inr x
     end).
Proof. unfold in_world. intros ->. reflexivity. Qed.

Lemma load_patterns_rng (read_file : str -> exn + str)
    (json_loads : str -> option json) (file_path : str) (w : world G) :
  rng (fst (load_patterns read_file json_loads file_path w)) = rng w.
Proof.
  unfold load_patterns, try_except, bind, json_load, raise, ret.
  destruct (read_file file_path) as [e|content]; [destruct e; reflexivity|].
  destruct (json_loads content) as [v|]; [|reflexivity].
  destruct (is_dict v); reflexivity.
Qed.

Lemma load_patterns_keeps_world (read_file : str -> exn + str)
    (json_loads : str -> option json) (file_path : str) (w w' : world G) v :
  load_patterns read_file json_loads file_path w = (w', inr v) -> w' = w.
Proof.
  unfold load_patterns, try_except, bind, json_load, raise, ret.
  destruct (read_file file_path) as [e|content]; [destruct e; discriminate|].
  destruct (json_loads content) as [v'|]; [|discriminate].
  destruct (is_dict v'); simpl; [|discriminate].
  intros H. inversion H. reflexivity.
Qed.

Lemma main_without_log_failure args env p :
  log_file_ok args env ->
  main Faker_new (Parsed args) env p = finish (main_body Faker_new args env p).
Proof.
  unfold main, log_file_ok. intros Hok.
  destruct (given (args_log_file args)) as [log_file|]; [|reflexivity].
  rewrite (Hok log_file eq_refl). reflexivity.
Qed.

Ltac run_body :=
  unfold main_body, write_output, write_failed, pbind, pret, sys_exit, praise,
    print, cli_log, file_holds, in_world;
  repeat match goal with
         | |- context [match ?x with _ => _ end] =>
           lazymatch x with
           | context [match _ with _ => _ end] => fail
           | _ => destruct x eqn:?
           end
         | |- context [if ?b then _ else _] => destruct b eqn:?
         end.

(** X9: [main] ends in one of four ways: [parse_args] exits, with its
    status; or [main] returns; or it exits with status 1; or, the log file
    failing to open before anything else is done, it lets that exception
    out.  No other exception escapes and [main] itself uses no other
    status. *)
Theorem main_exit_status parsed env p p' st :
  main Faker_new parsed env p = (p', st) ->
  st = Returned \/ st = Exited 1 \/
  (exists code printed,
     parsed = Parse_exit code printed /\ st = Exited code /\
     p' = Process (p_rng p) (p_log p) (p_stdout p ++ printed) (p_files p)) \/
  (exists args log_file e,
     parsed = Parsed args /\
     given (args_log_file args) = Some log_file /\
     env_log_handler env log_file = Some e /\ st = Raised e /\ p' = p).
Proof.
  destruct parsed as [args|code printed].
  2:{ simpl. intros H. inversion H; subst. right. right. left.
      exists code, printed. auto. }
  unfold main.
  destruct (given (args_log_file args)) as [log_file|] eqn:Hlog.
  - destruct (env_log_handler env log_file) as [e|] eqn:Hh.
    + intros H. inversion H; subst. right. right. right.
      exists args, log_file, e. auto.
    + revert p' st. run_body; intros p' st H; simpl in H;
        repeat match type of H with
               | context [match ?e with _ => _ end] => destruct e
               end;
        inversion H; auto.
  - revert p' st. run_body; intros p' st H; simpl in H;
      repeat match type of H with
             | context [match ?e with _ => _ end] => destruct e
             end;
      inversion H; auto.
Qed.



(** X12: when the patterns file cannot be loaded, [main] exits with
    status 1 after logging the exception once more, whatever the input:
    the text is not looked at, nothing is printed (not even the help on a
    terminal without input), no file is written and the generator is not
    used. *)
Theorem main_patterns_failure args env p file_path w e :
  log_file_ok args env ->
  given (args_patterns args) = Some file_path ->
  load_patterns (env_read_file env) (env_json_loads env) file_path
                (World (p_rng p) []) = (w, inl e) ->
  main Faker_new (Parsed args) env p =
    (Process (p_rng p) ((p_log p ++ map Core (log w)) ++ [reported e])
             (p_stdout p) (p_files p), Exited 1).
Proof.
  intros Hlog Hpat Hload. rewrite (main_without_log_failure args env p Hlog).
  unfold main_body. rewrite Hpat. unfold pbind.
  rewrite (in_world_run _ p w (inl e) Hload).
  pose proof (load_patterns_rng (env_read_file env) (env_json_loads env)
                file_path (World (p_rng p) [])) as Hr.
  rewrite Hload in Hr. simpl in Hr. rewrite Hr.
  destruct e; reflexivity.
Qed.

(** X13: an empty string given for an argument counts as no argument:
    an empty input text sends [main] to the standard input, an empty
    output path to the standard output, an empty patterns path to the
    default categories, an empty log path to no log file. *)
Theorem main_empty_arguments args env p :
  main Faker_new (Parsed args) env p = main Faker_new (Parsed (normalize args)) env p.
Proof.
  unfold main, main_body, normalize. simpl. rewrite !given_given. reflexivity.
Qed.

(** X14: with no input text on a terminal, the patterns file (if any)
    having loaded, [main] prints the help and exits with status 1; the
    generator is not used and nothing is logged. *)
Theorem main_without_input args env p :
  log_file_ok args env ->
  (given (args_patterns args) = None \/
   exists file_path w v,
     given (args_patterns args) = Some file_path /\
     load_patterns (env_read_file env) (env_json_loads env) file_path
                   (World (p_rng p) []) = (w, inr v)) ->
  input_of args env = None ->
  main Faker_new (Parsed args) env p =
    (Process (p_rng p) (p_log p) (p_stdout p ++ [Help_printed]) (p_files p),
     Exited 1).
Proof.
  intros Hlog Hpat Hin. rewrite (main_without_log_failure args env p Hlog).
  unfold input_of in Hin. unfold main_body.
  destruct (given (args_input_text args)) as [t|]; [discriminate|].
  destruct (env_isatty env); [|discriminate]. simpl negb. cbv iota.
  destruct Hpat as [Hpat | (file_path & w & v & Hpat & Hload)]; rewrite Hpat.
  - reflexivity.
  - unfold pbind at 1 2. rewrite (in_world_run _ p w (inr v) Hload).
    rewrite (load_patterns_keeps_world _ _ _ _ _ _ Hload).
    simpl. rewrite app_nil_r. reflexivity.
Qed.



End MainFacts.

(** ** Runs *)

Lemma redact_text_effects_run :
  World 3 [] =
  effects_of (Examples.default_engine Fakers.counting)
             (patterns (Examples.default_engine Fakers.counting)) Examples.w0.
Proof.
  exact (redact_text_effects nat (Examples.default_engine Fakers.counting)
           Examples.two_names Examples.w0 (World 3 []) (py "Name0 met Name0")
           eq_refl).
Defined.

Lemma redact_text_raises_only_run :
  OverflowError = re_error \/ OverflowError = IndexError \/
  exists item,
    In item (patterns (Examples.custom_engine
                         [Examples.name_item; Examples.overflow_item]
                         Fakers.flaky)) /\
    re_compile (snd item) = inl OverflowError.
Proof.
  exact (redact_text_raises_only nat
           (Examples.custom_engine [Examples.name_item; Examples.overflow_item]
                                   Fakers.flaky)
           Examples.two_names Examples.w0
           (World 1 [Fake_data_error (py "name")
                       (OtherException (py "no locale data"));
                     No_replacement_defined (py "zip");
                     Unexpected_redaction_error OverflowError])
           OverflowError eq_refl).
Defined.

Lemma redact_text_concat_run :
  redact_text
    (Examples.custom_engine [Examples.name_item; Examples.email_item] Fakers.counting)
    (py "John Doe at a@b.co") Examples.w0
  = (World 1 [No_replacement_defined (py "email")], inr (py "Name0 at ")).
Proof.
  apply (proj2 (redact_text_concat nat
                  (Examples.custom_engine [Examples.name_item] Fakers.counting)
                  (Examples.custom_engine [Examples.email_item] Fakers.counting)
                  (Examples.custom_engine [Examples.name_item; Examples.email_item]
                                          Fakers.counting)
                  (py "John Doe at a@b.co") Examples.w0
                  (World 1 [No_replacement_defined (py "email")]) (py "Name0 at ")
                  eq_refl eq_refl eq_refl)).
  exists (World 1 []), (py "Name0 at a@b.co"). split; reflexivity.
Defined.

Lemma load_patterns_returns_mapping_run :
  Examples.w0 = Examples.w0 /\
  is_dict (as_loaded [(py "email", py "[a-z]+@[a-z]+")]) = true /\
  exists content,
    Json.read Examples.disk (py "email.json") = inr content /\
    Json.loads content = Some (as_loaded [(py "email", py "[a-z]+@[a-z]+")]).
Proof.
  exact (load_patterns_returns_mapping nat (Json.read Examples.disk) Json.loads
           (py "email.json") Examples.w0 Examples.w0
           (as_loaded [(py "email", py "[a-z]+@[a-z]+")]) eq_refl).
Defined.

Lemma load_patterns_failure_run :
  rng (World 0 [Invalid_JSON (py "cut.json")]) = rng Examples.w0 /\
  (exists r, log (World 0 [Invalid_JSON (py "cut.json")]) = log Examples.w0 ++ [r]) /\
  (Json.read Examples.disk (py "cut.json") = inl JSONDecodeError \/
   exists content,
     Json.read Examples.disk (py "cut.json") = inr content /\
     ((Json.loads content = None /\ JSONDecodeError = JSONDecodeError) \/
      (exists v, Json.loads content = Some v /\ is_dict v = false /\
                 JSONDecodeError = TypeError))).
Proof.
  exact (load_patterns_failure nat (Json.read Examples.disk) Json.loads
           (py "cut.json") Examples.w0 (World 0 [Invalid_JSON (py "cut.json")])
           JSONDecodeError eq_refl).
Defined.

Lemma non_string_rule_raises_run :
  exists w2,
    fst (_get_replacement
           (generator_of
              (init_loaded Fakers.counting
                 (Some (JObject [(fst Examples.name_item,
                                  JString (snd Examples.name_item));
                                 (py "ssn", JNumber (py "9"))])) None))
           (py "ssn") (World 1 [])) = w2 /\
    redact_text_loaded
      (init_loaded Fakers.counting
         (Some (JObject [(fst Examples.name_item, JString (snd Examples.name_item));
                         (py "ssn", JNumber (py "9"))])) None)
      Examples.two_names Examples.w0
    = (World (rng w2) (log w2 ++ [Unexpected_redaction_error TypeError]),
       inl TypeError).
Proof.
  exact (non_string_rule_raises nat
           (init_loaded Fakers.counting
              (Some (JObject [(fst Examples.name_item, JString (snd Examples.name_item));
                              (py "ssn", JNumber (py "9"))])) None)
           [(fst Examples.name_item, JString (snd Examples.name_item))]
           (py "ssn") (JNumber (py "9")) [] Examples.two_names Examples.w0
           (World 1 []) (py "Name0 met Name0") eq_refl eq_refl eq_refl).
Defined.

Lemma main_exit_status_run :
  Exited 1 = Returned \/ Exited 1 = Exited 1 \/
  (exists code printed,
     Parsed (Shell.arguments None (Some (py "list.json")) None)
     = Parse_exit code printed /\ Exited 1 = Exited code /\
     Process 0 [Core (Logged_exception TypeError); Error_logged TypeError] [] []
     = Process (p_rng Shell.start) (p_log Shell.start)
               (p_stdout Shell.start ++ printed) (p_files Shell.start)) \/
  (exists args log_file e,
     Parsed (Shell.arguments None (Some (py "list.json")) None) = Parsed args /\
     given (args_log_file args) = Some log_file /\
     env_log_handler Shell.terminal log_file = Some e /\ Exited 1 = Raised e /\
     Process 0 [Core (Logged_exception TypeError); Error_logged TypeError] [] []
     = Shell.start).
Proof.
  exact (main_exit_status nat Fakers.counting
           (Parsed (Shell.arguments None (Some (py "list.json")) None))
           Shell.terminal Shell.start
           (Process 0 [Core (Logged_exception TypeError); Error_logged TypeError] [] [])
           (Exited 1) eq_refl).
Defined.



Lemma main_patterns_failure_run :
  main Fakers.counting
       (Parsed (Shell.arguments (Some (py "call John Doe"))
                                (Some (py "absent.json")) None))
       Shell.terminal Shell.start
  = (Process 0 [Core (Pattern_file_not_found (py "absent.json"));
                Error_logged FileNotFoundError] [] [], Exited 1).
Proof.
  refine (main_patterns_failure nat Fakers.counting
            (Shell.arguments (Some (py "call John Doe")) (Some (py "absent.json")) None)
            Shell.terminal Shell.start (py "absent.json")
            (World 0 [Pattern_file_not_found (py "absent.json")]) FileNotFoundError
            _ eq_refl eq_refl).
  intros log_file H. discriminate H.
Defined.

Lemma main_without_input_run :
  main Fakers.counting
       (Parsed (Shell.arguments (Some []) (Some (py "email.json")) None))
       Shell.terminal Shell.start
  = (Process 0 [] [Help_printed] [], Exited 1).
Proof.
  refine (main_without_input nat Fakers.counting
            (Shell.arguments (Some []) (Some (py "email.json")) None)
            Shell.terminal Shell.start _ _ eq_refl).
  - intros log_file H. discriminate H.
  - right. exists (py "email.json"), Examples.w0,
                  (as_loaded [(py "email", py "[a-z]+@[a-z]+")]).
    split; reflexivity.
Defined.


(** ** Running inside the process

    [in_world] runs a computation of the redactor or of [load_patterns]
    on an empty log and puts its records after those of the process: the
    same as running it on the log of the process, these computations only
    appending to the log. *)

Section InWorld.
Context {E : RegexEngine}.
Variable G : Type.

Lemma load_patterns_log_frame (read_file : str -> exn + str)
    (json_loads : str -> option json) (file_path : str) (g : G) (l : list log_record) :
  load_patterns read_file json_loads file_path (World g l) =
    (World (rng (fst (load_patterns read_file json_loads file_path (World g []))))
           (l ++ log (fst (load_patterns read_file json_loads file_path (World g [])))),
     snd (load_patterns read_file json_loads file_path (World g []))).
Proof.
  unfold load_patterns, try_except, bind, json_load, raise, ret.
  destruct (read_file file_path) as [e|content].
  - destruct e; reflexivity.
  - destruct (json_loads content) as [v|]; [|reflexivity].
    destruct (is_dict v); simpl; rewrite ?app_nil_r; reflexivity.
Qed.

Lemma passes_loaded_log_frame (L : LoadedRedactor G) items :
  forall text g l,
    passes_loaded L items text (World g l) =
      (World (rng (fst (passes_loaded L items text (World g []))))
             (l ++ log (fst (passes_loaded L items text (World g [])))),
       snd (passes_loaded L items text (World g []))).
Proof.
  induction items as [|[c v] rest IH]; intros text g l.
  - simpl. rewrite app_nil_r. reflexivity.
  - rewrite !passes_loaded_cons, !pass_loaded_unfold.
    rewrite (get_replacement_log_frame G (generator_of L) c g l).
    destruct (_get_replacement (generator_of L) c (World g [])) as [[g1 l1] [e|repl]];
      simpl; [reflexivity|].
    destruct (re_sub_loaded v repl text) as [e|t1]; simpl; [reflexivity|].
    rewrite (IH t1 g1 (l ++ l1)), (IH t1 g1 l1). simpl.
    rewrite app_assoc. reflexivity.
Qed.

Lemma redact_text_loaded_log_frame (L : LoadedRedactor G) text g l :
  redact_text_loaded L text (World g l) =
    (World (rng (fst (redact_text_loaded L text (World g []))))
           (l ++ log (fst (redact_text_loaded L text (World g [])))),
     snd (redact_text_loaded L text (World g []))).
Proof.
  unfold redact_text_loaded, try_except, lift, bind, logging, raise.
  destruct (items_of (held_patterns L)) as [e|items].
  - destruct e; simpl; rewrite ?app_nil_r; reflexivity.
  - rewrite (passes_loaded_log_frame L items text g l).
    destruct (passes_loaded L items text (World g [])) as [[g1 l1] [e|out]];
      simpl; [|reflexivity].
    destruct e; simpl; rewrite app_assoc; reflexivity.
Qed.

End InWorld.
